(** * legal_AI_Reader: risk scoring and question routing

    A shallow embedding of the two engines of the repository:

    - [modules/enhanced_risk_detection.py], class [EnhancedRiskDetector]
      (severity cascade, missing-clause detection, overall score,
      confidence);
    - [modules/qa_engine.py], class [LegalQAEngine] (keyword routing and
      the pattern-driven extractors), together with the part of Python's
      [re] module the extractors rely on.

    Conventions of the embedding.

    - Python [str] is [string]: a sequence of 8-bit characters.  On ASCII
      text the operations below ([lower], [strip], [title], [in], slicing,
      regular-expression classes) coincide with Python's; the three
      non-ASCII currency signs of the pattern table are carried by their
      UTF-8 bytes.
    - Python [float] is [Q]: every constant of the source (0.85, 2.5, ...)
      is the rational it denotes and arithmetic is exact.  Equality of
      scores is therefore [Qeq] ([==]).  Python rounds every float
      operation to 53 bits, so the score it stores can differ from the
      rational one in the last place: for factors LOW, LOW, HIGH of
      confidence 0.85 and three missing clauses the rational score is 4
      and the stored one 3.9999999999999996.
    - Code that can raise returns [result]. *)

From Stdlib Require Import String Ascii List QArith Qminmax Lia Lqa Bool Arith.
Import ListNotations.

Open Scope string_scope.

(* ================================================================== *)
(** * Python strings *)
(* ================================================================== *)

Module PyStr.

Local Open Scope nat_scope.

Definition is_upper (c : ascii) : bool :=
  let n := nat_of_ascii c in (65 <=? n)%nat && (n <=? 90)%nat.

Definition is_lower (c : ascii) : bool :=
  let n := nat_of_ascii c in (97 <=? n)%nat && (n <=? 122)%nat.

Definition is_alpha (c : ascii) : bool := is_upper c || is_lower c.

Definition is_digit (c : ascii) : bool :=
  let n := nat_of_ascii c in (48 <=? n)%nat && (n <=? 57)%nat.

(** [str.isspace] on one character: TAB, LF, VT, FF, CR, the four
    separators 0x1c-0x1f and SPACE. *)
Definition is_space (c : ascii) : bool :=
  let n := nat_of_ascii c in
  ((9 <=? n)%nat && (n <=? 13)%nat) || ((28 <=? n)%nat && (n <=? 32)%nat).

Definition lower_char (c : ascii) : ascii :=
  if is_upper c then ascii_of_nat (nat_of_ascii c + 32) else c.

Definition upper_char (c : ascii) : ascii :=
  if is_lower c then ascii_of_nat (nat_of_ascii c - 32) else c.

Fixpoint smap (f : ascii -> ascii) (s : string) : string :=
  match s with
  | EmptyString => EmptyString
  | String c s' => String (f c) (smap f s')
  end.

(** [s.lower()] *)
Definition lower (s : string) : string := smap lower_char s.

(** [s.replace(old, new)] for one-character [old] and [new]. *)
Definition replace_char (old new : ascii) (s : string) : string :=
  smap (fun c => if Ascii.eqb c old then new else c) s.

(** [s.title()]: a cased character is upper-cased when the character
    before it is not cased and lower-cased otherwise. *)
Fixpoint title_from (previous_is_cased : bool) (s : string) : string :=
  match s with
  | EmptyString => EmptyString
  | String c s' =>
      String (if previous_is_cased then lower_char c else upper_char c)
             (title_from (is_alpha c) s')
  end.

Definition title (s : string) : string := title_from false s.

(** [s.startswith(p)] *)
Fixpoint startswith (p s : string) : bool :=
  match p, s with
  | EmptyString, _ => true
  | String a p', String b s' => Ascii.eqb a b && startswith p' s'
  | String _ _, EmptyString => false
  end.

(** [needle in hay] *)
Fixpoint str_in (needle hay : string) : bool :=
  startswith needle hay ||
  match hay with
  | EmptyString => false
  | String _ hay' => str_in needle hay'
  end.

(** [hay.find(needle)]: the first index of [needle], or -1. *)
Fixpoint find_from (i : nat) (needle hay : string) : Z :=
  if startswith needle hay then Z.of_nat i
  else match hay with
       | EmptyString => (-1)%Z
       | String _ hay' => find_from (S i) needle hay'
       end.

Definition find (needle hay : string) : Z := find_from 0 needle hay.

Fixpoint lstrip (s : string) : string :=
  match s with
  | EmptyString => EmptyString
  | String c s' => if is_space c then lstrip s' else s
  end.

Fixpoint rstrip (s : string) : string :=
  match s with
  | EmptyString => EmptyString
  | String c s' =>
      match rstrip s' with
      | EmptyString => if is_space c then EmptyString else String c EmptyString
      | r => String c r
      end
  end.

(** [s.strip()] *)
Definition strip (s : string) : string := rstrip (lstrip s).

(** [s[i:j]] for [0 <= i], [0 <= j]. *)
Definition slice (s : string) (i j : nat) : string := substring i (j - i) s.

(** [sep.join(l)] *)
Fixpoint join (sep : string) (l : list string) : string :=
  match l with
  | [] => ""
  | [x] => x
  | x :: l' => x ++ sep ++ join sep l'
  end.

(** [list(set(l))]: the distinct elements of [l].  Python leaves their
    order unspecified; the model keeps them by first occurrence. *)
Fixpoint unique (l : list string) : list string :=
  match l with
  | [] => []
  | x :: l' => x :: filter (fun y => negb (String.eqb x y)) (unique l')
  end.

(** [str(n)] for a natural number. *)
Definition digit_char (n : nat) : ascii := ascii_of_nat (48 + n mod 10).

Fixpoint str_of_nat_fuel (fuel n : nat) (acc : string) : string :=
  match fuel with
  | 0 => acc
  | S fuel' =>
      let acc' := String (digit_char n) acc in
      if (n <? 10)%nat then acc' else str_of_nat_fuel fuel' (n / 10) acc'
  end.

Definition str_of_nat (n : nat) : string := str_of_nat_fuel (S n) n "".

End PyStr.

(* ================================================================== *)
(** * Floats as rationals *)
(* ================================================================== *)

Module PyNum.

Open Scope Q_scope.

(** [x >= y] *)
Definition ge (x y : Q) : bool := Qle_bool y x.

(** [x > y] *)
Definition gt (x y : Q) : bool := negb (Qle_bool x y).

(** [min(a, b)]: [b] when [b < a], otherwise [a]. *)
Definition py_min (a b : Q) : Q := if gt a b then b else a.

(** [float(len(l))] *)
Definition len {A} (l : list A) : Q := inject_Z (Z.of_nat (length l)).

End PyNum.

(* ================================================================== *)
(** * Exceptions *)
(* ================================================================== *)

Module Exn.

(** A computation that returns a value or raises the named exception. *)
Inductive result (A : Type) : Type :=
| Ok (a : A)
| Raise (exc : string).

Arguments Ok {A} a.
Arguments Raise {A} exc.

Definition bind {A B} (x : result A) (f : A -> result B) : result B :=
  match x with
  | Ok a => f a
  | Raise e => Raise e
  end.

Notation "x <- c1 ;; c2" := (bind c1 (fun x => c2))
  (at level 61, c1 at next level, right associativity).

(** Run [f] on every element, left to right, stopping at the first raise. *)
Fixpoint mapM {A B} (f : A -> result B) (l : list A) : result (list B) :=
  match l with
  | [] => Ok []
  | a :: l' => b <- f a ;; bs <- mapM f l' ;; Ok (b :: bs)
  end.

End Exn.

(* ================================================================== *)
(** * Python's [re]: the fragment used by the pattern tables *)
(* ================================================================== *)

Module Re.

Import PyStr Exn.
Local Open Scope nat_scope.
Local Open Scope char_scope.

(** ** Syntax *)

Inductive citem : Type :=
| CChar (c : ascii)
| CRange (lo hi : ascii)
| CDigit                       (* \d *)
| CSpace                       (* \s *)
| CWord.                       (* \w *)

Inductive regex : Type :=
| Empty
| Char (c : ascii)
| AnyChar                                        (* .  *)
| CharSet (negated : bool) (items : list citem)  (* [...], \d, \s, \w *)
| Boundary                                       (* \b *)
| Cat (r1 r2 : regex)
| Or (r1 r2 : regex)                             (* r1|r2 *)
| Repeat (lo : nat) (hi : option nat) (greedy : bool) (r : regex)
| Group (n : nat) (r : regex)                    (* (...)   *)
| NotAhead (r : regex).                          (* (?!...) *)

(** ** Parsing a pattern string *)

Definition parsed : Type := option (regex * nat * list ascii).

Definition is_alnum (c : ascii) : bool := is_alpha c || is_digit c.

Definition digit_value (c : ascii) : nat := nat_of_ascii c - 48.

Fixpoint parse_number (acc : nat) (s : list ascii) : nat * list ascii :=
  match s with
  | c :: s' => if is_digit c then parse_number (10 * acc + digit_value c) s'
               else (acc, s)
  | [] => (acc, s)
  end.

(** The escapes [\d], [\s], [\w] as class items; [\x] for a punctuation
    character [x] is that character. *)
Definition class_escape (c : ascii) : option citem :=
  if Ascii.eqb c "d" then Some CDigit
  else if Ascii.eqb c "s" then Some CSpace
  else if Ascii.eqb c "w" then Some CWord
  else if is_alnum c then None
  else Some (CChar c).

Fixpoint parse_class_items (fuel : nat) (s : list ascii) (acc : list citem)
  : option (list citem * list ascii) :=
  match fuel with
  | O => None
  | S fuel' =>
      match s with
      | [] => None
      | "]" :: s' => Some (rev acc, s')
      | "\" :: c :: s' =>
          match class_escape c with
          | Some i => parse_class_items fuel' s' (i :: acc)
          | None => None
          end
      | lo :: "-" :: "]" :: s' => Some (rev (CChar "-" :: CChar lo :: acc), s')
      | lo :: "-" :: hi :: s' => parse_class_items fuel' s' (CRange lo hi :: acc)
      | c :: s' => parse_class_items fuel' s' (CChar c :: acc)
      end
  end.

Definition parse_class (s : list ascii) : option (regex * list ascii) :=
  let '(negated, s1) :=
    match s with
    | "^" :: s' => (true, s')
    | _ => (false, s)
    end in
  match parse_class_items (S (length s1)) s1 [] with
  | Some (items, s2) => Some (CharSet negated items, s2)
  | None => None
  end.

(** A quantifier after an atom, with its optional lazy mark. *)
Definition parse_quantifier (atom : regex) (s : list ascii) : regex * list ascii :=
  let bounds : option (nat * option nat * list ascii) :=
    match s with
    | "*" :: s' => Some (0, None, s')
    | "+" :: s' => Some (1, None, s')
    | "?" :: s' => Some (0, Some 1, s')
    | "{" :: c :: s' =>
        if is_digit c then
          let '(lo, s1) := parse_number 0 (c :: s') in
          match s1 with
          | "}" :: s2 => Some (lo, Some lo, s2)
          | "," :: "}" :: s2 => Some (lo, None, s2)
          | "," :: d :: s2 =>
              if is_digit d then
                let '(hi, s3) := parse_number 0 (d :: s2) in
                match s3 with
                | "}" :: s4 => Some (lo, Some hi, s4)
                | _ => None
                end
              else None
          | _ => None
          end
        else None
    | _ => None
    end in
  match bounds with
  | Some (lo, hi, "?" :: s') => (Repeat lo hi false atom, s')
  | Some (lo, hi, s') => (Repeat lo hi true atom, s')
  | None => (atom, s)
  end.

Fixpoint parse_alt (fuel groups : nat) (s : list ascii) {struct fuel} : parsed :=
  match fuel with
  | O => None
  | S fuel' =>
      match parse_seq fuel' groups s with
      | Some (r1, groups1, "|" :: s1) =>
          match parse_alt fuel' groups1 s1 with
          | Some (r2, groups2, s2) => Some (Or r1 r2, groups2, s2)
          | None => None
          end
      | other => other
      end
  end
with parse_seq (fuel groups : nat) (s : list ascii) {struct fuel} : parsed :=
  match fuel with
  | O => None
  | S fuel' =>
      match s with
      | [] => Some (Empty, groups, [])
      | "|" :: _ => Some (Empty, groups, s)
      | ")" :: _ => Some (Empty, groups, s)
      | _ =>
          match parse_atom fuel' groups s with
          | Some (atom, groups1, s1) =>
              let '(item, s2) := parse_quantifier atom s1 in
              match parse_seq fuel' groups1 s2 with
              | Some (Empty, groups2, s3) => Some (item, groups2, s3)
              | Some (r, groups2, s3) => Some (Cat item r, groups2, s3)
              | None => None
              end
          | None => None
          end
      end
  end
with parse_atom (fuel groups : nat) (s : list ascii) {struct fuel} : parsed :=
  match fuel with
  | O => None
  | S fuel' =>
      match s with
      | [] => None
      | "(" :: "?" :: ":" :: s1 =>
          match parse_alt fuel' groups s1 with
          | Some (r, groups1, ")" :: s2) => Some (r, groups1, s2)
          | _ => None
          end
      | "(" :: "?" :: "!" :: s1 =>
          match parse_alt fuel' groups s1 with
          | Some (r, groups1, ")" :: s2) => Some (NotAhead r, groups1, s2)
          | _ => None
          end
      | "(" :: "?" :: _ => None
      | "(" :: s1 =>
          match parse_alt fuel' (S groups) s1 with
          | Some (r, groups1, ")" :: s2) => Some (Group (S groups) r, groups1, s2)
          | _ => None
          end
      | "[" :: s1 =>
          match parse_class s1 with
          | Some (r, s2) => Some (r, groups, s2)
          | None => None
          end
      | "\" :: "b" :: s1 => Some (Boundary, groups, s1)
      | "\" :: c :: s1 =>
          match class_escape c with
          | Some (CChar x) => Some (Char x, groups, s1)
          | Some i => Some (CharSet false [i], groups, s1)
          | None => None
          end
      | "\" :: [] => None
      | "." :: s1 => Some (AnyChar, groups, s1)
      | "*" :: _ => None
      | "+" :: _ => None
      | "?" :: _ => None
      | c :: s1 => Some (Char c, groups, s1)
      end
  end.

(** [re.compile(pattern)]: the expression and its number of groups. *)
Definition compile (pattern : string) : result (regex * nat) :=
  let s := list_ascii_of_string pattern in
  match parse_alt (4 * length s + 4) 0 s with
  | Some (r, groups, []) => Ok (r, groups)
  | _ => Raise "re.error"
  end.

(** ** Matching *)

(** The matcher walks the text with the position reached, the character
    just before it (for [\b]), the characters still ahead and the spans
    of the groups closed so far. *)
Record state : Type := mkState {
  pos : nat;
  prev : option ascii;
  rest : list ascii;
  spans : list (nat * (nat * nat))
}.

Definition is_word (c : ascii) : bool := is_alnum c || Ascii.eqb c "_".

Definition word_opt (c : option ascii) : bool :=
  match c with
  | Some x => is_word x
  | None => false
  end.

Definition in_range (lo hi c : ascii) : bool :=
  (nat_of_ascii lo <=? nat_of_ascii c)%nat && (nat_of_ascii c <=? nat_of_ascii hi)%nat.

Definition char_eq (ignorecase : bool) (x c : ascii) : bool :=
  if ignorecase then Ascii.eqb (lower_char x) (lower_char c) else Ascii.eqb x c.

Definition citem_mem (ignorecase : bool) (c : ascii) (i : citem) : bool :=
  match i with
  | CChar x => char_eq ignorecase x c
  | CRange lo hi =>
      in_range lo hi c ||
      (ignorecase && (in_range lo hi (lower_char c) || in_range lo hi (upper_char c)))
  | CDigit => is_digit c
  | CSpace => is_space c
  | CWord => is_word c
  end.

(** Consume one character satisfying [p]. *)
Definition eat (p : ascii -> bool) (st : state) (k : state -> option state)
  : option state :=
  match rest st with
  | c :: rest' =>
      if p c then k (mkState (S (pos st)) (Some c) rest' (spans st)) else None
  | [] => None
  end.

Definition below (count : nat) (hi : option nat) : bool :=
  match hi with
  | Some h => (count <? h)%nat
  | None => true
  end.

Definition same_place (last : option nat) (p : nat) : bool :=
  match last with
  | Some q => (q =? p)%nat
  | None => false
  end.

Definition newline : ascii := ascii_of_nat 10.

(** Backtracking matcher in continuation-passing style: [k] is what must
    still match after [r]; alternatives are tried in Python's order
    (left branch first, greedy repeats longest first, lazy repeats
    shortest first).  Once the lower bound of a repeat is reached, a
    further iteration is tried only if the position has moved since the
    previous one started. *)
Fixpoint match_re (ignorecase : bool) (r : regex) (st : state)
    (k : state -> option state) {struct r} : option state :=
  match r with
  | Empty => k st
  | Char x => eat (char_eq ignorecase x) st k
  | AnyChar => eat (fun c => negb (Ascii.eqb c newline)) st k
  | CharSet negated items =>
      eat (fun c => xorb negated (existsb (citem_mem ignorecase c) items)) st k
  | Boundary =>
      if xorb (word_opt (prev st)) (word_opt (hd_error (rest st)))
      then k st else None
  | Cat r1 r2 =>
      match_re ignorecase r1 st (fun st' => match_re ignorecase r2 st' k)
  | Or r1 r2 =>
      match match_re ignorecase r1 st k with
      | Some st' => Some st'
      | None => match_re ignorecase r2 st k
      end
  | Repeat lo hi greedy r' =>
      (fix loop (fuel count : nat) (last : option nat) (st : state)
           {struct fuel} : option state :=
         match fuel with
         | O => if (lo <=? count)%nat then k st else None
         | S fuel' =>
             if (count <? lo)%nat then
               match_re ignorecase r' st (fun st' => loop fuel' (S count) last st')
             else
               let more (_ : unit) :=
                 if below count hi && negb (same_place last (pos st)) then
                   match_re ignorecase r' st
                     (fun st' => loop fuel' (S count) (Some (pos st)) st')
                 else None in
               if greedy then
                 match more tt with
                 | Some st' => Some st'
                 | None => k st
                 end
               else
                 match k st with
                 | Some st' => Some st'
                 | None => more tt
                 end
         end) (lo + length (rest st) + 3)%nat O None st
  | Group n r' =>
      match_re ignorecase r' st
        (fun st' => k (mkState (pos st') (prev st') (rest st')
                               ((n, (pos st, pos st')) :: spans st')))
  | NotAhead r' =>
      match match_re ignorecase r' st (fun st' => Some st') with
      | Some _ => None
      | None => k st
      end
  end.

(** A match object: the span of the whole match and of its groups. *)
Record Match : Type := mkMatch {
  m_string : string;
  m_start : nat;
  m_end : nat;
  m_spans : list (nat * (nat * nat));
  m_ngroups : nat
}.

(** [match.group()] *)
Definition group0 (m : Match) : string := slice (m_string m) (m_start m) (m_end m).

Fixpoint lookup_span (n : nat) (l : list (nat * (nat * nat))) : option (nat * nat) :=
  match l with
  | [] => None
  | (i, sp) :: l' => if (i =? n)%nat then Some sp else lookup_span n l'
  end.

(** [match.group(n)] for [1 <= n]: [None] when the group took no part. *)
Definition group (m : Match) (n : nat) : option string :=
  match lookup_span n (m_spans m) with
  | Some (i, j) => Some (slice (m_string m) i j)
  | None => None
  end.

(** Leftmost match starting at the current position or later.  With
    [must_advance] an empty match at the very first position is refused
    (the previous match ended there and was empty). *)
Fixpoint search (ignorecase : bool) (r : regex) (must_advance : bool)
    (p : nat) (before : option ascii) (ahead : list ascii) {struct ahead}
  : option (nat * state) :=
  match match_re ignorecase r (mkState p before ahead [])
          (fun st' => if must_advance && (pos st' =? p)%nat then None else Some st') with
  | Some st' => Some (p, st')
  | None =>
      match ahead with
      | c :: ahead' => search ignorecase r false (S p) (Some c) ahead'
      | [] => None
      end
  end.

Fixpoint scan (fuel : nat) (ignorecase : bool) (r : regex) (ngroups : nat)
    (text : string) (must_advance : bool) (st : state) : list Match :=
  match fuel with
  | O => []
  | S fuel' =>
      match search ignorecase r must_advance (pos st) (prev st) (rest st) with
      | Some (start, st') =>
          mkMatch text start (pos st') (spans st') ngroups
          :: scan fuel' ignorecase r ngroups text (pos st' =? start)%nat st'
      | None => []
      end
  end.

(** [list(re.finditer(pattern, text, flags))], [flags] being
    [re.IGNORECASE] or nothing. *)
Definition finditer (pattern text : string) (ignorecase : bool)
  : result (list Match) :=
  c <- compile pattern ;;
  let '(r, ngroups) := c in
  let s := list_ascii_of_string text in
  Ok (scan (2 * length s + 2) ignorecase r ngroups text false (mkState 0 None s [])).

(** [re.findall(pattern, text)] for a pattern without groups. *)
Definition findall (pattern text : string) : result (list string) :=
  ms <- finditer pattern text false ;;
  Ok (map group0 ms).

Fixpoint split_at (text : string) (last : nat) (ms : list Match) : list string :=
  match ms with
  | [] => [slice text last (String.length text)]
  | m :: ms' => slice text last (m_start m) :: split_at text (m_end m) ms'
  end.

(** [re.split(pattern, text)] for a pattern without groups. *)
Definition split (pattern text : string) : result (list string) :=
  ms <- finditer pattern text false ;;
  Ok (split_at text 0 ms).

End Re.

(* ================================================================== *)
(** * enhanced_risk_detection.py *)
(* ================================================================== *)

Module Risk.

Import PyStr PyNum Exn.
Open Scope Q_scope.

Inductive RiskLevel := LOW | MEDIUM | HIGH | CRITICAL.

Inductive RiskCategory :=
| LIABILITY | FINANCIAL | COMPLIANCE | OPERATIONAL | INTELLECTUAL_PROPERTY
| CONFIDENTIALITY | TERMINATION | DISPUTE_RESOLUTION.

Definition RiskCategory_eq_dec (a b : RiskCategory) : {a = b} + {a <> b}.
Proof. decide equality. Defined.

Record RiskFactor := mkRiskFactor {
  text : string;
  category : RiskCategory;
  level : RiskLevel;
  confidence : Q;
  explanation : string;
  clause_context : string;
  recommendations : list string;
  legal_precedents : list string;
  mitigation_strategies : list string
}.

(** The fields [recommendations] and [confidence] of the source carry the
    prefix [assessment_] here, [RiskFactor] having fields of those names. *)
Record RiskAssessment := mkRiskAssessment {
  overall_score : Q;
  risk_level : RiskLevel;
  risk_factors : list RiskFactor;
  missing_clauses : list string;
  assessment_recommendations : list string;
  summary : string;
  assessment_confidence : Q
}.

(** ** [_load_risk_knowledge] *)

Record PatternData := mkPatternData {
  patterns : list string;
  explanations : list (string * string)
}.

Definition risk_patterns : list (RiskCategory * PatternData) :=
  [ (LIABILITY, mkPatternData
       [ "\bunlimited\s+liability\b";
         "\bpersonal\s+guarantee\b";
         "\bjoint\s+and\s+several\s+liability\b";
         "\bindemnif(?:y|ication)\b.*\bfrom\s+and\s+against\s+all\b";
         "\bhold\s+harmless\b";
         "\bno\s+limitation\s+of\s+liability\b" ]
       [ ("unlimited liability",
          "Unlimited liability exposes parties to potentially catastrophic financial losses without caps or limits.");
         ("personal guarantee",
          "Personal guarantees put individual assets at risk beyond business assets.");
         ("joint and several liability",
          "Joint and several liability makes each party responsible for the full amount of damages.") ]);
    (FINANCIAL, mkPatternData
       [ "\bliquidated\s+damages\b";
         "\bpenalty\b(?!\s+clause)";
         "\binterest\s+rate\b.*\b(?:per\s+month|monthly)\b";
         "\bimmediate\s+payment\b";
         "\bno\s+right\s+to\s+offset\b";
         "\bpayment\s+in\s+advance\b" ]
       [ ("liquidated damages",
          "Liquidated damages clauses can result in significant financial penalties.");
         ("penalty",
          "Penalty clauses may impose harsh financial consequences for minor breaches.");
         ("high interest",
          "Excessive interest rates can create unsustainable financial burdens.") ]);
    (TERMINATION, mkPatternData
       [ "\bterminate\s+(?:immediately|without\s+notice)\b";
         "\bno\s+cure\s+period\b";
         "\btermination\s+for\s+convenience\b";
         "\bimmediate\s+termination\b";
         "\bterminate\s+at\s+will\b" ]
       [ ("immediate termination",
          "Immediate termination clauses provide no opportunity to cure breaches.");
         ("termination for convenience",
          "Termination for convenience allows unilateral contract termination without cause.");
         ("no cure period",
          "Absence of cure periods prevents parties from correcting minor violations.") ]);
    (INTELLECTUAL_PROPERTY, mkPatternData
       [ "\bassignment\s+of\s+(?:all\s+)?(?:intellectual\s+property|ip)\b";
         "\bwork\s+for\s+hire\b";
         "\bexclusive\s+license\b";
         "\btrade\s+secrets?\b.*\bperpetual\b";
         "\bnon-compete\b.*\b(?:worldwide|global)\b" ]
       [ ("ip assignment",
          "Broad IP assignment clauses may transfer valuable intellectual property rights.");
         ("work for hire",
          "Work for hire provisions can result in loss of ownership of created works.");
         ("exclusive license",
          "Exclusive licenses may prevent use of own intellectual property.") ]);
    (COMPLIANCE, mkPatternData
       [ "\bstrict\s+compliance\b";
         "\bmaterial\s+adverse\s+change\b";
         "\brepresentations\s+and\s+warranties\b.*\bsurvive\b";
         "\bcontinuing\s+representations\b" ]
       [ ("strict compliance",
          "Strict compliance requirements leave no room for minor deviations.");
         ("material adverse change",
          "Material adverse change clauses can trigger contract termination.");
         ("surviving warranties",
          "Surviving warranties extend liability beyond contract termination.") ]) ].

Definition standard_clauses : list (string * list string) :=
  [ ("limitation_of_liability",
       ["limitation of liability"; "liability cap"; "damages limitation"]);
    ("force_majeure",
       ["force majeure"; "act of god"; "unforeseeable circumstances"]);
    ("confidentiality",
       ["confidentiality"; "non-disclosure"; "proprietary information"]);
    ("dispute_resolution",
       ["dispute resolution"; "arbitration"; "mediation"; "governing law"]);
    ("termination_notice",
       ["termination notice"; "notice period"; "advance notice"]);
    ("intellectual_property",
       ["intellectual property"; "ip rights"; "proprietary rights"]) ].

(** [self.mitigation_strategies.get(category, [])] *)
Definition mitigation_strategies_get (c : RiskCategory) : list string :=
  match c with
  | LIABILITY =>
      [ "Add liability caps to limit maximum exposure";
        "Include mutual indemnification clauses";
        "Negotiate carve-outs for gross negligence and willful misconduct";
        "Consider insurance requirements" ]
  | FINANCIAL =>
      [ "Negotiate payment terms and schedules";
        "Add right to offset provisions";
        "Include dispute resolution for payment disputes";
        "Consider escrow arrangements for large payments" ]
  | TERMINATION =>
      [ "Add cure periods for non-material breaches";
        "Negotiate termination notice requirements";
        "Include survival clauses for important provisions";
        "Define material breach clearly" ]
  | _ => []
  end.

(** ** [_calculate_risk_level] *)

Definition high_risk_indicators : list string :=
  ["unlimited"; "immediate"; "no cure"; "personal guarantee";
   "joint and several"; "liquidated damages"].

Definition critical_risk_indicators : list string :=
  ["unlimited liability"; "personal guarantee"; "immediate termination"].

Definition generic_severity_words : list string :=
  ["penalty"; "forfeit"; "breach"].

Definition _calculate_risk_level (pattern context : string) : RiskLevel :=
  let pattern_lower := lower pattern in
  let context_lower := lower context in
  if existsb (fun indicator =>
                str_in indicator pattern_lower || str_in indicator context_lower)
             critical_risk_indicators
  then CRITICAL
  else if existsb (fun indicator =>
                str_in indicator pattern_lower || str_in indicator context_lower)
             high_risk_indicators
  then HIGH
  else if existsb (fun word => str_in word pattern_lower) generic_severity_words
  then MEDIUM
  else LOW.

(** ** [_get_risk_explanation] *)

Definition default_explanations_get (c : RiskCategory) : string :=
  match c with
  | LIABILITY => "This clause may expose parties to significant liability risks."
  | FINANCIAL => "This provision could result in unexpected financial obligations."
  | TERMINATION => "This termination clause may be unfavorable to one party."
  | INTELLECTUAL_PROPERTY => "This clause affects intellectual property rights."
  | COMPLIANCE => "This provision imposes strict compliance requirements."
  | _ => "This clause presents potential risks."
  end.

Definition _get_risk_explanation (pattern : string) (category : RiskCategory)
    (data : PatternData) : string :=
  match List.find (fun entry => str_in (fst entry) (lower pattern))
                  (explanations data) with
  | Some (_, explanation) => explanation
  | None => default_explanations_get category
  end.

(** ** [detect_missing_clauses] *)

Definition clause_name (clause_type : string) : string :=
  title (replace_char "_" " " clause_type).

Definition missing_from (text_lower : string)
    (clauses : list (string * list string)) : list string :=
  flat_map (fun entry =>
              let '(clause_type, keywords) := entry in
              if negb (existsb (fun keyword => str_in keyword text_lower) keywords)
              then [clause_name clause_type] else [])
           clauses.

Definition detect_missing_clauses (text : string) : list string :=
  let text_lower := lower text in
  missing_from text_lower standard_clauses.

(** ** [calculate_overall_risk_score] *)

Definition risk_weights (l : RiskLevel) : Q :=
  match l with
  | LOW => 1
  | MEDIUM => 5 # 2
  | HIGH => 4
  | CRITICAL => 5
  end.

(** The [if]/[elif] chain that closes [calculate_overall_risk_score]. *)
Definition level_of_score (normalized_score : Q) : RiskLevel :=
  if ge normalized_score 8 then CRITICAL
  else if ge normalized_score 6 then HIGH
  else if ge normalized_score 4 then MEDIUM
  else LOW.

(** The accumulation loop and the missing-clause penalty. *)
Definition raw_score (risk_factors : list RiskFactor)
    (missing_clauses : list string) : Q :=
  fold_left (fun score factor =>
               score + risk_weights (level factor) * confidence factor)
            risk_factors 0
  + len missing_clauses * (1 # 2).

Definition max_possible_score (risk_factors : list RiskFactor)
    (missing_clauses : list string) : Q :=
  len risk_factors * 5 + len missing_clauses * (1 # 2).

Definition calculate_overall_risk_score (risk_factors : list RiskFactor)
    (missing_clauses : list string) : Q * RiskLevel :=
  match risk_factors, missing_clauses with
  | [], [] => (2, LOW)
  | _, _ =>
      let score := raw_score risk_factors missing_clauses in
      let max_possible_score := max_possible_score risk_factors missing_clauses in
      let normalized_score :=
        if gt max_possible_score 0
        then py_min 10 (score / max_possible_score * 10)
        else 1 in
      (normalized_score, level_of_score normalized_score)
  end.

(** ** [_generate_recommendations] *)

Fixpoint dedup (seen : list string) (l : list string) : list string :=
  match l with
  | [] => []
  | rec :: l' =>
      if existsb (String.eqb rec) seen then dedup seen l'
      else rec :: dedup (rec :: seen) l'
  end.

Definition _generate_recommendations (risk_factors : list RiskFactor)
    (missing_clauses : list string) : list string :=
  let recs := flat_map (fun factor => firstn 2 (recommendations factor))
                       risk_factors in
  let recs :=
    match missing_clauses with
    | [] => recs
    | _ => app recs [ "Consider adding the following clauses: "
                      ++ join ", " missing_clauses ]
    end in
  firstn 10 (dedup [] recs).

(** ** [_calculate_confidence] *)

(** [sum(...)]: left-to-right accumulation from 0. *)
Definition sum (l : list Q) : Q := fold_left Qplus l 0.

Definition _calculate_confidence (risk_factors : list RiskFactor) : Q :=
  match risk_factors with
  | [] => 8 # 10
  | _ =>
      let avg_confidence := sum (map confidence risk_factors) / len risk_factors in
      py_min (95 # 100) avg_confidence
  end.

(** ** The detector *)

Section Detector.

(** Two capabilities come from outside the repository: spaCy's sentence
    segmentation, [[sent.text for sent in self.nlp(text).sents]], and the
    format specification [.1f] of a float. *)
Variable sents : string -> list string.
Variable format_1f : Q -> string.

(** The sentence whose span, located by [text.find], contains the match. *)
Definition enclosing_sentence (text : string) (m : Re.Match)
    (sentences : list string) : option string :=
  List.find (fun sent =>
               (find sent text <=? Z.of_nat (Re.m_start m))%Z &&
               (Z.of_nat (Re.m_end m) <=? find sent text + Z.of_nat (String.length sent))%Z)
            sentences.

Definition factors_of_pattern (text : string) (sentences : list string)
    (category : RiskCategory) (data : PatternData) (pattern : string)
  : result (list RiskFactor) :=
  matches <- Re.finditer pattern text true ;;
  Ok (flat_map
        (fun m =>
           match enclosing_sentence text m sentences with
           | Some match_sentence =>
               if String.eqb match_sentence "" then []
               else
                 [ mkRiskFactor (Re.group0 m) category
                     (_calculate_risk_level pattern match_sentence)
                     (85 # 100)
                     (_get_risk_explanation pattern category data)
                     match_sentence
                     (mitigation_strategies_get category)
                     []
                     (mitigation_strategies_get category) ]
           | None => []
           end)
        matches).

Definition analyze_semantic_risks (text : string) : result (list RiskFactor) :=
  let sentences := sents text in
  match sentences with
  | [] => Ok []
  | _ =>
      per_category <-
        mapM (fun entry =>
                let '(category, data) := entry in
                per_pattern <-
                  mapM (factors_of_pattern text sentences category data)
                       (patterns data) ;;
                Ok (concat per_pattern))
             risk_patterns ;;
      Ok (concat per_category)
  end.

(** [len(set(f.category for f in risk_factors))] *)
Definition count_categories (risk_factors : list RiskFactor) : nat :=
  length (nodup RiskCategory_eq_dec (map category risk_factors)).

Definition _generate_summary (risk_factors : list RiskFactor)
    (missing_clauses : list string) (overall_score : Q) : string :=
  let severity :=
    if ge overall_score 8 then "critical"
    else if ge overall_score 6 then "high"
    else if ge overall_score 4 then "moderate"
    else "low" in
  let summary :=
    "This document presents " ++ severity ++ " risk with a score of "
    ++ format_1f overall_score ++ "/10. " in
  let summary :=
    match risk_factors with
    | [] => summary
    | _ => summary ++ "Found " ++ str_of_nat (length risk_factors)
           ++ " risk factors across "
           ++ str_of_nat (count_categories risk_factors) ++ " categories. "
    end in
  let summary :=
    match missing_clauses with
    | [] => summary
    | _ => summary ++ "Missing " ++ str_of_nat (length missing_clauses)
           ++ " important protective clauses. "
    end in
  summary ++ "Review recommendations for risk mitigation strategies.".

Definition assess_risk (text : string) : result RiskAssessment :=
  risk_factors <- analyze_semantic_risks text ;;
  let missing_clauses := detect_missing_clauses text in
  let '(overall_score, risk_level) :=
    calculate_overall_risk_score risk_factors missing_clauses in
  let recommendations := _generate_recommendations risk_factors missing_clauses in
  let summary := _generate_summary risk_factors missing_clauses overall_score in
  let confidence := _calculate_confidence risk_factors in
  Ok (mkRiskAssessment overall_score risk_level risk_factors missing_clauses
        recommendations summary confidence).

End Detector.

End Risk.

(* ================================================================== *)
(** * qa_engine.py *)
(* ================================================================== *)

Module QA.

Import PyStr PyNum Exn.
Open Scope Q_scope.

Record QAResult := mkQAResult {
  question : string;
  answer : string;
  confidence : Q;
  context : string;
  sources : list string
}.

(** A result built without [context] and [sources]: [context] defaults
    to the empty string and [__post_init__] turns [sources=None] into
    the empty list. *)
Definition QAResult_default (question answer : string) (confidence : Q) : QAResult :=
  mkQAResult question answer confidence "" [].

(** The mutable attributes of [LegalQAEngine]; the pattern tables that
    [load_legal_patterns] installs are the constants below. *)
Record LegalQAEngine := mkEngine {
  document_text : string;
  entities : list (string * list string)
}.

(** [LegalQAEngine()] *)
Definition init : LegalQAEngine := mkEngine "" [].

(** [self.set_document(text, entities)], [entities] being [None] by
    default. *)
Definition set_document (self : LegalQAEngine) (text : string)
    (entities : option (list (string * list string))) : LegalQAEngine :=
  mkEngine text (match entities with Some e => e | None => [] end).

(** ** [load_legal_patterns] *)

Definition currency_patterns : list (string * list string) :=
  [ ("USD", ["\$[\d,]+(?:\.\d{2})?"; "USD\s*[\d,]+"; "dollars?"]);
    ("CAD", ["CAD\s*[\d,]+"; "C\$[\d,]+"; "Canadian\s+dollars?"]);
    ("GBP", ["£[\d,]+(?:\.\d{2})?"; "GBP\s*[\d,]+"; "pounds?"]);
    ("INR", ["₹[\d,]+(?:\.\d{2})?"; "Rs\.?\s*[\d,]+"; "INR\s*[\d,]+"; "rupees?";
             "[\d,]+\s*(?:crores?|lakhs?)"]);
    ("EUR", ["€[\d,]+(?:\.\d{2})?"; "EUR\s*[\d,]+"; "euros?"]) ].

Definition entity_patterns_companies : list string :=
  [ "\b[A-Z][a-zA-Z\s&]+(?:Inc|LLC|Corp|Corporation|Company|Ltd|Limited|Pvt\.?\s*Ltd\.?|LLP)\b";
    "\b[A-Z][a-zA-Z\s&]+(?:GmbH|AG|SA|SAS|BV|AB|AS)\b" ].

Definition entity_patterns_people : list string :=
  [ "\b(?:Mr\.?|Mrs\.?|Ms\.?|Dr\.?)\s+[A-Z][a-zA-Z]+(?:\s+[A-Z][a-zA-Z]+)*\b";
    "\b[A-Z][a-zA-Z]+\s+[A-Z][a-zA-Z]+(?:\s+[A-Z][a-zA-Z]+)*\b" ].

Definition date_patterns : list string :=
  [ "\b\d{1,2}[/-]\d{1,2}[/-]\d{2,4}\b";
    "\b\d{1,2}(?:st|nd|rd|th)?\s+(?:January|February|March|April|May|June|July|August|September|October|November|December)\s*,?\s*\d{4}\b";
    "\b(?:January|February|March|April|May|June|July|August|September|October|November|December)\s+\d{1,2}(?:st|nd|rd|th)?\s*,?\s*\d{4}\b" ].

Definition jurisdiction_patterns : list string :=
  [ "courts?\s+(?:of|in|at)\s+([A-Za-z\s]+)(?:\s+shall\s+have\s+jurisdiction|jurisdiction)";
    "governed\s+by\s+(?:the\s+)?laws?\s+of\s+([A-Za-z\s]+)";
    "subject\s+to\s+(?:the\s+)?jurisdiction\s+of\s+([A-Za-z\s]+)";
    "exclusive\s+jurisdiction\s+of\s+([A-Za-z\s]+)";
    "courts?\s+of\s+([A-Za-z\s]+)\s+shall\s+have\s+jurisdiction" ].

Definition termination_patterns : list string :=
  [ "(?:terminate|termination).*?(?:upon|after|within)\s+(\d+\s+(?:days?|months?|years?))";
    "(?:notice\s+of\s+)?termination.*?(\d+\s+(?:days?|months?|years?))";
    "either\s+party\s+may\s+terminate.*?(\d+\s+(?:days?|months?|years?))";
    "contract\s+(?:shall\s+)?terminate.*?(\d+\s+(?:days?|months?|years?))" ].

Definition payment_patterns : list string :=
  [ "payment.*?(?:due|payable).*?(\d+\s+(?:days?|months?))";
    "invoice.*?(?:due|payable).*?(\d+\s+(?:days?|months?))";
    "(?:net\s+)?(\d+)\s+days?";
    "payment\s+terms?.*?(\d+\s+(?:days?|months?))" ].

(** ** Helpers shared by the extractors *)

(** [d[key]] guarded by [key in d]. *)
Fixpoint dict_get {A} (key : string) (d : list (string * A)) : option A :=
  match d with
  | [] => None
  | (k, v) :: d' => if String.eqb k key then Some v else dict_get key d'
  end.

(** All matches of all patterns, pattern by pattern, in text order. *)
Definition sweep (patterns : list string) (text : string) (ignorecase : bool)
  : result (list Re.Match) :=
  per_pattern <- mapM (fun pattern => Re.finditer pattern text ignorecase) patterns ;;
  Ok (concat per_pattern).

(** [text[max(0, match.start() - w):min(len(text), match.end() + w)].strip()] *)
Definition context_window (text : string) (w : nat) (m : Re.Match) : string :=
  let start := Nat.max 0 (Re.m_start m - w) in
  let end_ := Nat.min (String.length text) (Re.m_end m + w) in
  strip (slice text start end_).

(** [contexts[0] if contexts else ""] *)
Definition first_context (contexts : list string) : string :=
  match contexts with
  | c :: _ => c
  | [] => ""
  end.

(** [match.group(1) if match.groups() else match.group()]; the caller
    strips the value, which raises when the group took no part. *)
Definition group1_or_all (m : Re.Match) : result string :=
  if (0 <? Re.m_ngroups m)%nat then
    match Re.group m 1 with
    | Some s => Ok (strip s)
    | None => Raise "AttributeError"
    end
  else Ok (strip (Re.group0 m)).

(** The "found" sentence listing at most five values and the overflow. *)
Definition list_up_to_5 (prefix : string) (values : list string) : string :=
  let answer := prefix ++ join ", " (firstn 5 values) in
  if (5 <? length values)%nat
  then answer ++ " and " ++ str_of_nat (length values - 5) ++ " more"
  else answer.

(** [any(word in s for word in words)] *)
Definition any_in (words : list string) (s : string) : bool :=
  existsb (fun word => str_in word s) words.

(** ** The extractors *)

Definition _answer_money_question (self : LegalQAEngine)
    (question country_preference : string) : result QAResult :=
  let patterns :=
    match dict_get country_preference currency_patterns with
    | Some patterns => patterns
    | None => flat_map snd currency_patterns
    end in
  matches <- sweep patterns (document_text self) true ;;
  let money_matches := map Re.group0 matches in
  let contexts := map (context_window (document_text self) 100) matches in
  match money_matches with
  | _ :: _ =>
      let unique_amounts := unique money_matches in
      Ok (mkQAResult question
            (list_up_to_5 "Found monetary amounts: " unique_amounts)
            (9 # 10) (first_context contexts) unique_amounts)
  | [] =>
      Ok (QAResult_default question
            "No monetary amounts found in the document." (3 # 10))
  end.

Definition _answer_party_question (self : LegalQAEngine) (question : string)
  : result QAResult :=
  matches <- sweep entity_patterns_companies (document_text self) false ;;
  let companies := map (fun m => strip (Re.group0 m)) matches in
  let contexts := map (context_window (document_text self) 50) matches in
  people <-
    (if any_in ["person"; "individual"; "signatory"; "representative"]
               (lower question)
     then
       ms <- sweep entity_patterns_people (document_text self) false ;;
       Ok (map (fun m => strip (Re.group0 m)) ms)
     else Ok []) ;;
  let all_parties := unique (app companies people) in
  match all_parties with
  | _ :: _ =>
      Ok (mkQAResult question (list_up_to_5 "Found parties: " all_parties)
            (85 # 100) (first_context contexts) all_parties)
  | [] =>
      Ok (QAResult_default question
            "No clear parties or organizations identified in the document."
            (3 # 10))
  end.

Definition _answer_date_question (self : LegalQAEngine) (question : string)
  : result QAResult :=
  matches <- sweep date_patterns (document_text self) true ;;
  let dates := map Re.group0 matches in
  let contexts := map (context_window (document_text self) 80) matches in
  match dates with
  | _ :: _ =>
      let unique_dates := unique dates in
      Ok (mkQAResult question
            (list_up_to_5 "Found important dates: " unique_dates)
            (8 # 10) (first_context contexts) unique_dates)
  | [] =>
      Ok (QAResult_default question
            "No specific dates found in the document." (3 # 10))
  end.

(** The three extractors that report a captured group share one shape:
    for every pattern and every match, the stripped group and the
    context window around the match. *)
Definition answer_with_group (self : LegalQAEngine) (question : string)
    (patterns : list string) (w : nat) (found : string) (found_confidence : Q)
    (not_found : string) : result QAResult :=
  per_pattern <-
    mapM (fun pattern =>
            matches <- Re.finditer pattern (document_text self) true ;;
            mapM (fun m =>
                    term <- group1_or_all m ;;
                    Ok (term, context_window (document_text self) w m))
                 matches)
         patterns ;;
  let terms := map fst (concat per_pattern) in
  let contexts := map snd (concat per_pattern) in
  match terms with
  | _ :: _ =>
      let unique_terms := unique terms in
      Ok (mkQAResult question (found ++ join ", " unique_terms)
            found_confidence (first_context contexts) unique_terms)
  | [] => Ok (QAResult_default question not_found (3 # 10))
  end.

Definition _answer_jurisdiction_question (self : LegalQAEngine)
    (question : string) : result QAResult :=
  answer_with_group self question jurisdiction_patterns 50
    "Found jurisdiction/governing law: " (9 # 10)
    "No clear jurisdiction or governing law clauses found.".

Definition _answer_termination_question (self : LegalQAEngine)
    (question : string) : result QAResult :=
  answer_with_group self question termination_patterns 100
    "Found termination terms: " (85 # 100)
    "No specific termination clauses found.".

Definition _answer_payment_question (self : LegalQAEngine)
    (question : string) : result QAResult :=
  answer_with_group self question payment_patterns 100
    "Found payment terms: " (85 # 100)
    "No specific payment terms found.".

(** [max(l, key=len)] started from [best]: the first longest element. *)
Fixpoint longest (best : string) (l : list string) : string :=
  match l with
  | [] => best
  | s :: l' =>
      if (String.length best <? String.length s)%nat then longest s l'
      else longest best l'
  end.

Definition general_not_found : string :=
  "I couldn't find specific information to answer that question. Please try rephrasing or ask about parties, amounts, dates, or jurisdiction.".

(** The sentences in which at least two question words longer than three
    characters occur. *)
Definition relevant (question_words sentences : list string) : list string :=
  flat_map
    (fun sentence =>
       let sentence_lower := lower sentence in
       let matches :=
         length (filter (fun word =>
                           str_in word sentence_lower
                           && (3 <? String.length word)%nat)
                        question_words) in
       if (2 <=? matches)%nat then [strip sentence] else [])
    sentences.

Definition _answer_general_question (self : LegalQAEngine) (question : string)
  : result QAResult :=
  question_words <- Re.findall "\b\w+\b" (lower question) ;;
  sentences <- Re.split "[.!?]+" (document_text self) ;;
  match relevant question_words sentences with
  | first :: others =>
      let best_sentence := longest first others in
      let answer :=
        if (300 <? String.length best_sentence)%nat
        then slice best_sentence 0 300 ++ "..."
        else best_sentence in
      Ok (mkQAResult question answer (6 # 10) best_sentence [best_sentence])
  | [] => Ok (QAResult_default question general_not_found (2 # 10))
  end.

(** ** [answer_question] *)

Inductive Extractor :=
| Money | Party | Date | Jurisdiction | Termination | Payment | General.

Definition money_words : list string :=
  ["value"; "amount"; "price"; "cost"; "money"; "payment"].
Definition party_words : list string :=
  ["party"; "parties"; "who"; "company"; "organization"].
Definition date_words : list string :=
  ["date"; "when"; "expire"; "expiry"; "term"; "duration"].
Definition jurisdiction_words : list string :=
  ["jurisdiction"; "court"; "law"; "governing"; "legal"].
Definition termination_words : list string :=
  ["terminate"; "termination"; "end"; "cancel"].
Definition payment_words : list string :=
  ["payment"; "pay"; "invoice"; "billing"].

(** The [if]/[elif] chain of [answer_question], as the extractor chosen. *)
Definition route (question_lower : string) : Extractor :=
  if any_in money_words question_lower then Money
  else if any_in party_words question_lower then Party
  else if any_in date_words question_lower then Date
  else if any_in jurisdiction_words question_lower then Jurisdiction
  else if any_in termination_words question_lower then Termination
  else if any_in payment_words question_lower then Payment
  else General.

Definition dispatch (e : Extractor) (self : LegalQAEngine)
    (question country_preference : string) : result QAResult :=
  match e with
  | Money => _answer_money_question self question country_preference
  | Party => _answer_party_question self question
  | Date => _answer_date_question self question
  | Jurisdiction => _answer_jurisdiction_question self question
  | Termination => _answer_termination_question self question
  | Payment => _answer_payment_question self question
  | General => _answer_general_question self question
  end.

(** [self.answer_question(question, country_preference)]; the source
    defaults [country_preference] to ["International"]. *)
Definition answer_question (self : LegalQAEngine)
    (question country_preference : string) : result QAResult :=
  let question_lower := lower question in
  dispatch (route question_lower) self question country_preference.

(** ** [get_suggested_questions] *)

Definition get_suggested_questions (country_preference : string) : list string :=
  let suggestions :=
    [ "What is the contract value?";
      "Who are the parties involved?";
      "When does this contract expire?";
      "What are the payment terms?";
      "What jurisdiction governs this contract?";
      "Are there any termination clauses?" ] in
  if String.eqb country_preference "India" then
    app suggestions
      [ "What are the GST/PAN numbers mentioned?";
        "Which Indian courts have jurisdiction?";
        "Are there any FEMA compliance requirements?" ]
  else if String.eqb country_preference "USA" then
    app suggestions
      [ "What US state law governs this contract?";
        "Are there any federal compliance requirements?" ]
  else if String.eqb country_preference "UK" then
    app suggestions
      [ "Which UK courts have jurisdiction?";
        "Are there any Companies House requirements?" ]
  else suggestions.

End QA.

(* ================================================================== *)
(** * Vocabulary of the statements *)
(* ================================================================== *)

Module Spec.

Import PyStr PyNum.

(** [needle] occurs in [hay] as a contiguous substring. *)
Definition Substring (needle hay : string) : Prop :=
  exists pre post : string, hay = pre ++ needle ++ post.

(** Some word of [words] occurs in [s]. *)
Definition Mentions (words : list string) (s : string) : Prop :=
  exists w : string, In w words /\ Substring w s.

(** Some word of [words] occurs in [s1] or in [s2]. *)
Definition MentionsEither (words : list string) (s1 s2 : string) : Prop :=
  exists w : string, In w words /\ (Substring w s1 \/ Substring w s2).

(** Severity order of the risk levels: low < medium < high < critical. *)
Definition level_rank (l : Risk.RiskLevel) : nat :=
  match l with
  | Risk.LOW => 0
  | Risk.MEDIUM => 1
  | Risk.HIGH => 2
  | Risk.CRITICAL => 3
  end.

(** The factor [f] with its level replaced. *)
Definition with_level (f : Risk.RiskFactor) (l : Risk.RiskLevel) : Risk.RiskFactor :=
  Risk.mkRiskFactor (Risk.text f) (Risk.category f) l (Risk.confidence f)
    (Risk.explanation f) (Risk.clause_context f) (Risk.recommendations f)
    (Risk.legal_precedents f) (Risk.mitigation_strategies f).

(** The arithmetic mean of a non-empty list, as the spec words it: the
    total divided by the number of elements. *)
Definition total (l : list Q) : Q := fold_right Qplus 0%Q l.

Definition arithmetic_mean (l : list Q) : Q := (total l / len l)%Q.

(** One step of the accumulation loop of [calculate_overall_risk_score],
    and the loop run from 0. *)
Definition add_factor (score : Q) (factor : Risk.RiskFactor) : Q :=
  (score + Risk.risk_weights (Risk.level factor) * Risk.confidence factor)%Q.

Definition weighted (risk_factors : list Risk.RiskFactor) : Q :=
  fold_left add_factor risk_factors 0%Q.

(** The overall score of an assessment. *)
Definition score (risk_factors : list Risk.RiskFactor)
    (missing_clauses : list string) : Q :=
  fst (Risk.calculate_overall_risk_score risk_factors missing_clauses).

(** A critical-severity factor as the detector builds it for a match of
    its first liability pattern. *)
Definition critical_factor : Risk.RiskFactor :=
  Risk.mkRiskFactor "unlimited liability" Risk.LIABILITY Risk.CRITICAL (85 # 100)
    (Risk.default_explanations_get Risk.LIABILITY)
    "The supplier accepts unlimited liability."
    (Risk.mitigation_strategies_get Risk.LIABILITY) []
    (Risk.mitigation_strategies_get Risk.LIABILITY).

End Spec.

(* ================================================================== *)
(** * qa_engine.py: the module-level function *)
(* ================================================================== *)

Module QAModule.

Import Exn.

(** The module-level [answer_question(text, question, entities,
    country_preference)]: a new engine, loaded, asked once. *)
Definition answer_question (text question : string)
    (entities : option (list (string * list string)))
    (country_preference : string) : result string :=
  let qa_engine := QA.set_document QA.init text entities in
  result_ <- QA.answer_question qa_engine question country_preference ;;
  Ok (QA.answer result_).

End QAModule.

(* ================================================================== *)
(** * chat_memory.py *)
(* ================================================================== *)

Module ChatMemory.

Import Exn.

(** One entry of a history: the dict with keys "question" and "answer". *)
Record Interaction := mkInteraction {
  question : string;
  answer : string
}.

(** [self.memory]: a dict from document id to history, as the list of
    its items in insertion order; its keys are pairwise distinct. *)
Definition ChatMemory : Type := list (string * list Interaction).

Definition well_formed (memory : ChatMemory) : Prop := NoDup (map fst memory).

(** [ChatMemory()] *)
Definition init : ChatMemory := [].

(** [doc_id in memory] *)
Fixpoint contains (doc_id : string) (memory : ChatMemory) : bool :=
  match memory with
  | [] => false
  | (k, _) :: memory' => String.eqb k doc_id || contains doc_id memory'
  end.

(** [memory[doc_id]], [None] standing for [KeyError] *)
Fixpoint get (doc_id : string) (memory : ChatMemory) : option (list Interaction) :=
  match memory with
  | [] => None
  | (k, v) :: memory' => if String.eqb k doc_id then Some v else get doc_id memory'
  end.

(** [memory[doc_id] = v] *)
Fixpoint set (doc_id : string) (v : list Interaction) (memory : ChatMemory)
  : ChatMemory :=
  match memory with
  | [] => [(doc_id, v)]
  | (k, old) :: memory' =>
      if String.eqb k doc_id then (k, v) :: memory'
      else (k, old) :: set doc_id v memory'
  end.

(** [del memory[doc_id]] for a key that is present *)
Fixpoint del (doc_id : string) (memory : ChatMemory) : ChatMemory :=
  match memory with
  | [] => []
  | (k, v) :: memory' =>
      if String.eqb k doc_id then memory' else (k, v) :: del doc_id memory'
  end.

Definition add_interaction (self : ChatMemory) (doc_id question answer : string)
  : result ChatMemory :=
  let memory := if negb (contains doc_id self) then set doc_id [] self else self in
  match get doc_id memory with
  | Some history =>
      Ok (set doc_id (app history [mkInteraction question answer]) memory)
  | None => Raise "KeyError"
  end.

(** [self.memory.get(doc_id, [])] *)
Definition get_history (self : ChatMemory) (doc_id : string) : list Interaction :=
  match get doc_id self with
  | Some history => history
  | None => []
  end.

Definition clear_history (self : ChatMemory) (doc_id : string) : ChatMemory :=
  if contains doc_id self then del doc_id self else self.

End ChatMemory.

(* ================================================================== *)
(** * utils.py *)
(* ================================================================== *)

Module Utils.

Import PyStr Exn.

(** [range(i, stop, step)] for [step > 0]; [fuel] bounds the number of
    elements. *)
Fixpoint range_from (fuel i stop step : nat) : list nat :=
  match fuel with
  | O => []
  | S fuel' =>
      if (i <? stop)%nat then i :: range_from fuel' (i + step) stop step else []
  end.

(** [l[i:j]] for [0 <= i], [0 <= j] *)
Definition list_slice {A} (l : list A) (i j : nat) : list A :=
  firstn (j - i) (skipn i l).

(** [chunk_clauses_with_overlap(clauses, overlap_size)]; the source
    defaults [overlap_size] to 1.  A step of 0 makes [range] raise, a
    negative step makes it empty. *)
Definition chunk_clauses_with_overlap (clauses : list string) (overlap_size : Z)
  : result (list string) :=
  let step := (overlap_size + 1)%Z in
  if (step =? 0)%Z then Raise "ValueError"
  else if (step <? 0)%Z then Ok []
  else
    let k := Z.to_nat overlap_size in
    Ok (map (fun i =>
               let chunk := list_slice clauses (Nat.max 0 (i - k)) (i + 1 + k) in
               join " " chunk)
            (range_from (length clauses) 0 (length clauses) (Z.to_nat step))).

End Utils.

(* ================================================================== *)
(** * Vocabulary of the further statements *)
(* ================================================================== *)

Module ReAnalysis.

Import PyStr Exn Re.
Local Open Scope nat_scope.

(** The loop of a [Repeat], with the matcher of its body as a parameter. *)
Definition repeat_loop (body : state -> (state -> option state) -> option state)
    (lo : nat) (hi : option nat) (greedy : bool) (k : state -> option state)
  : nat -> nat -> option nat -> state -> option state :=
  fix loop (fuel count : nat) (last : option nat) (st : state)
      {struct fuel} : option state :=
    match fuel with
    | O => if (lo <=? count)%nat then k st else None
    | S fuel' =>
        if (count <? lo)%nat then
          body st (fun st' => loop fuel' (S count) last st')
        else
          let more (_ : unit) :=
            if below count hi && negb (same_place last (pos st)) then
              body st (fun st' => loop fuel' (S count) (Some (pos st)) st')
            else None in
          if greedy then
            match more tt with
            | Some st' => Some st'
            | None => k st
            end
          else
            match k st with
            | Some st' => Some st'
            | None => more tt
            end
    end.

(** Group [n] is closed on every path through [r]. *)
Fixpoint always_sets (n : nat) (r : regex) : bool :=
  match r with
  | Cat r1 r2 => always_sets n r1 || always_sets n r2
  | Or r1 r2 => always_sets n r1 && always_sets n r2
  | Repeat lo _ _ r' => (1 <=? lo) && always_sets n r'
  | Group m r' => (m =? n) || always_sets n r'
  | _ => false
  end.

Definition has_span (n : nat) (l : list (nat * (nat * nat))) : bool :=
  match lookup_span n l with
  | Some _ => true
  | None => false
  end.

(** What a successful run of a matcher owes to its continuation: the
    result is a result of [k] at a state that kept group [n] if it was
    set, and has it set if [sets] holds. *)
Definition reaches (n : nat) (sets : bool) (st : state) (k : state -> option state)
    (st' : state) : Prop :=
  exists st1, k st1 = Some st' /\
              (has_span n (spans st) = true -> has_span n (spans st1) = true) /\
              (sets = true -> has_span n (spans st1) = true).

(** The pattern compiles. *)
Definition compiles (pattern : string) : bool :=
  match compile pattern with
  | Ok _ => true
  | Raise _ => false
  end.

(** The pattern compiles and, if it has groups, every match closes
    group 1. *)
Definition group1_safe (pattern : string) : bool :=
  match compile pattern with
  | Ok (r, ngroups) => (ngroups =? 0)%nat || always_sets 1 r
  | Raise _ => false
  end.

End ReAnalysis.

Module QAShape.

Import PyStr PyNum Exn QA.

(** The confidence each extractor attaches to a positive answer and to
    its "not found" answer. *)
Definition found_confidence (e : Extractor) : Q :=
  match e with
  | Money => 9 # 10
  | Party => 85 # 100
  | Date => 8 # 10
  | Jurisdiction => 9 # 10
  | Termination => 85 # 100
  | Payment => 85 # 100
  | General => 6 # 10
  end.

Definition not_found_confidence (e : Extractor) : Q :=
  match e with
  | General => 2 # 10
  | _ => 3 # 10
  end.

(** The two shapes a result of extractor [e] for question [q] can take. *)
Definition answer_shape (q : string) (e : Extractor) (r : QAResult) : Prop :=
  question r = q /\
  ((sources r = [] /\ context r = "" /\ confidence r = not_found_confidence e) \/
   (sources r <> [] /\ NoDup (sources r) /\ confidence r = found_confidence e)).

(** The choices of the "Country/Region Focus" selector of app.py, which
    are the values passed as [country_preference]. *)
Definition country_options : list string :=
  ["International"; "USA"; "Canada"; "UK"; "India"; "EU"].

End QAShape.

Module RiskShape.

Import PyStr PyNum Exn Risk.

(** The names under which [detect_missing_clauses] reports the six
    standard clauses, in table order. *)
Definition standard_clause_names : list string :=
  ["Limitation Of Liability"; "Force Majeure"; "Confidentiality";
   "Dispute Resolution"; "Termination Notice"; "Intellectual Property"].

(** What every factor built by [analyze_semantic_risks] looks like. *)
Definition detector_factor (sentences : list string) (f : RiskFactor) : Prop :=
  confidence f = 85 # 100 /\
  In (clause_context f) sentences /\
  clause_context f <> "" /\
  In (category f)
     [LIABILITY; FINANCIAL; TERMINATION; INTELLECTUAL_PROPERTY; COMPLIANCE] /\
  recommendations f = mitigation_strategies_get (category f) /\
  mitigation_strategies f = mitigation_strategies_get (category f) /\
  legal_precedents f = [] /\
  (explanation f = default_explanations_get (category f) \/
   explanation f =
   "Penalty clauses may impose harsh financial consequences for minor breaches.").

(** The word [_generate_summary] uses for each band of the score. *)
Definition severity_word (l : RiskLevel) : string :=
  match l with
  | CRITICAL => "critical"
  | HIGH => "high"
  | MEDIUM => "moderate"
  | LOW => "low"
  end.

End RiskShape.

(* ================================================================== *)
(** * Facts about strings *)
(* ================================================================== *)

Module StrFacts.

Import PyStr Spec.

Lemma startswith_spec (p s : string) :
  startswith p s = true <-> exists post, s = p ++ post.
Proof.
  revert s; induction p as [|a p IH]; intros s; simpl.
  - split; [intros _; now exists s | reflexivity].
  - destruct s as [|b s].
    + split; [discriminate | intros [post H]; discriminate].
    + rewrite andb_true_iff, Ascii.eqb_eq, IH. split.
      * intros [-> [post ->]]. now exists post.
      * intros [post H]. injection H as -> ->. split; [reflexivity | now exists post].
Qed.

Lemma str_in_unfold (needle hay : string) :
  str_in needle hay =
  startswith needle hay ||
  match hay with
  | EmptyString => false
  | String _ hay' => str_in needle hay'
  end.
Proof. destruct hay; reflexivity. Qed.

Lemma str_in_cons (needle : string) (c : ascii) (hay : string) :
  str_in needle (String c hay) =
  startswith needle (String c hay) || str_in needle hay.
Proof. reflexivity. Qed.

Lemma str_in_spec (needle hay : string) :
  str_in needle hay = true <-> Substring needle hay.
Proof.
  split.
  - induction hay as [|c hay IH]; rewrite str_in_unfold, orb_true_iff.
    + intros [H | H]; [|discriminate].
      apply startswith_spec in H as [post H]. now exists "", post.
    + intros [H | H].
      * apply startswith_spec in H as [post H]. now exists "", post.
      * destruct (IH H) as (pre & post & ->). now exists (String c pre), post.
  - intros (pre & post & ->). induction pre as [|c pre IH].
    + rewrite str_in_unfold. simpl append.
      replace (startswith needle (needle ++ post)) with true; [reflexivity|].
      symmetry. apply startswith_spec. now exists post.
    + simpl append. rewrite str_in_cons, IH. apply orb_true_r.
Qed.

Lemma str_in_false (needle hay : string) :
  str_in needle hay = false <-> ~ Substring needle hay.
Proof.
  rewrite <- str_in_spec. destruct (str_in needle hay); split; intros H;
    try reflexivity; try discriminate; try (intros K; discriminate).
  now contradiction H.
Qed.

(** Only the empty string occurs in the empty string. *)
Lemma str_in_empty (needle : string) : str_in needle "" = true -> needle = "".
Proof. destruct needle; [reflexivity | discriminate]. Qed.

Lemma existsb_str_in (words : list string) (s : string) :
  existsb (fun word => str_in word s) words = true <-> Mentions words s.
Proof.
  rewrite existsb_exists. unfold Mentions.
  split; intros (w & Hin & H); exists w; (split; [assumption|]); now apply str_in_spec.
Qed.

Lemma existsb_str_in_either (words : list string) (s1 s2 : string) :
  existsb (fun word => str_in word s1 || str_in word s2) words = true
  <-> MentionsEither words s1 s2.
Proof.
  rewrite existsb_exists. unfold MentionsEither.
  split; intros (w & Hin & H); exists w; (split; [assumption|]).
  - apply orb_true_iff in H. now rewrite <- !str_in_spec.
  - apply orb_true_iff. now rewrite !str_in_spec.
Qed.

Lemma bool_reflect_false (b : bool) (P : Prop) :
  (b = true <-> P) -> (b = false <-> ~ P).
Proof.
  intros H. destruct b; split; intros K; try reflexivity; try discriminate.
  - exfalso. apply K. now apply H.
  - intros HP. apply H in HP. discriminate.
Qed.

End StrFacts.

(* ================================================================== *)
(** * Severity cascade and missing clauses *)
(* ================================================================== *)

Module RiskClauses.

Import PyStr Spec StrFacts Risk.

(** C7. Severity classification is an ordered cascade over the lowercased
    pattern string and the lowercased sentence: critical when either
    contains a critical indicator; otherwise high when either contains a
    high indicator; otherwise medium when the pattern contains "penalty",
    "forfeit" or "breach"; otherwise low. *)
Theorem severity_cascade (pattern context : string) :
  let pattern_lower := lower pattern in
  let context_lower := lower context in
  let critical :=
    MentionsEither
      ["unlimited liability"; "personal guarantee"; "immediate termination"]
      pattern_lower context_lower in
  let high :=
    MentionsEither
      ["unlimited"; "immediate"; "no cure"; "personal guarantee";
       "joint and several"; "liquidated damages"]
      pattern_lower context_lower in
  let medium := Mentions ["penalty"; "forfeit"; "breach"] pattern_lower in
  (critical -> _calculate_risk_level pattern context = CRITICAL) /\
  (~ critical -> high -> _calculate_risk_level pattern context = HIGH) /\
  (~ critical -> ~ high -> medium ->
   _calculate_risk_level pattern context = MEDIUM) /\
  (~ critical -> ~ high -> ~ medium ->
   _calculate_risk_level pattern context = LOW).
Proof.
  intros pl cl critical high medium. unfold _calculate_risk_level.
  fold pl cl.
  pose proof (existsb_str_in_either critical_risk_indicators pl cl) as Hc.
  pose proof (existsb_str_in_either high_risk_indicators pl cl) as Hh.
  pose proof (existsb_str_in generic_severity_words pl) as Hm.
  fold critical in Hc. fold high in Hh. fold medium in Hm.
  destruct (existsb _ critical_risk_indicators).
  - assert (critical) by now apply Hc.
    repeat split; intros; try reflexivity; contradiction.
  - assert (~ critical) by (intros K; apply Hc in K; discriminate).
    destruct (existsb _ high_risk_indicators).
    + assert (high) by now apply Hh.
      repeat split; intros; try reflexivity; contradiction.
    + assert (~ high) by (intros K; apply Hh in K; discriminate).
      destruct (existsb _ generic_severity_words).
      * assert (medium) by now apply Hm.
        repeat split; intros; try reflexivity; contradiction.
      * assert (~ medium) by (intros K; apply Hm in K; discriminate).
        repeat split; intros; try reflexivity; contradiction.
Qed.

Lemma mentions_either_decide (words : list string) (s1 s2 : string) :
  existsb (fun word => str_in word s1 || str_in word s2) words = false ->
  ~ MentionsEither words s1 s2.
Proof. intros H K. apply existsb_str_in_either in K. congruence. Qed.

Lemma mentions_decide (words : list string) (s : string) :
  existsb (fun word => str_in word s) words = false -> ~ Mentions words s.
Proof. intros H K. apply existsb_str_in in K. congruence. Qed.

(** The cascade at the detector's own patterns: a sentence with
    "immediate termination" is critical, one with "liquidated damages"
    high, the penalty pattern alone medium, and "hold harmless" low. *)
Lemma severity_cascade_witness :
  _calculate_risk_level "\bimmediate\s+termination\b"
    "Either side may seek Immediate Termination." = CRITICAL /\
  _calculate_risk_level "\bliquidated\s+damages\b"
    "Liquidated damages are payable." = HIGH /\
  _calculate_risk_level "\bpenalty\b(?!\s+clause)" "A penalty applies." = MEDIUM /\
  _calculate_risk_level "\bhold\s+harmless\b" "Hold harmless the buyer." = LOW.
Proof.
  split; [|split; [|split]].
  - apply (proj1 (severity_cascade _ _)).
    apply existsb_str_in_either. reflexivity.
  - apply (proj1 (proj2 (severity_cascade _ _))).
    + apply mentions_either_decide. reflexivity.
    + apply existsb_str_in_either. reflexivity.
  - apply (proj1 (proj2 (proj2 (severity_cascade _ _)))).
    + apply mentions_either_decide. reflexivity.
    + apply mentions_either_decide. reflexivity.
    + apply existsb_str_in. reflexivity.
  - apply (proj2 (proj2 (proj2 (severity_cascade _ _)))).
    + apply mentions_either_decide. reflexivity.
    + apply mentions_either_decide. reflexivity.
    + apply mentions_decide. reflexivity.
Defined.

(** A clause name is listed exactly when its entry has no keyword in the
    text. *)
Lemma in_missing_from (name text_lower : string)
    (clauses : list (string * list string)) :
  In name (missing_from text_lower clauses) <->
  exists clause_type keywords,
    In (clause_type, keywords) clauses /\
    clause_name clause_type = name /\
    ~ Mentions keywords text_lower.
Proof.
  unfold missing_from. rewrite in_flat_map. split.
  - intros ([ct kws] & Hin & H). exists ct, kws. split; [assumption|].
    destruct (existsb _ kws) eqn:E; simpl in H; [contradiction|].
    destruct H as [H|[]]. split; [assumption|].
    now apply mentions_decide.
  - intros (ct & kws & Hin & Hname & Hno). exists (ct, kws). split; [assumption|].
    destruct (existsb _ kws) eqn:E.
    + exfalso. apply Hno. now apply existsb_str_in.
    + simpl. now left.
Qed.

Lemma missing_from_all (text_lower : string)
    (clauses : list (string * list string)) :
  (forall clause_type keywords keyword,
      In (clause_type, keywords) clauses -> In keyword keywords ->
      ~ Substring keyword text_lower) ->
  missing_from text_lower clauses = map (fun entry => clause_name (fst entry)) clauses.
Proof.
  induction clauses as [|[ct kws] clauses IH]; intros H; [reflexivity|].
  unfold missing_from in *. simpl flat_map. simpl map.
  replace (existsb (fun keyword => str_in keyword text_lower) kws) with false.
  - simpl. f_equal. apply IH. intros ct' kws' kw Hin. apply (H ct' kws' kw). now right.
  - symmetry. apply (bool_reflect_false _ _ (existsb_str_in kws text_lower)).
    intros (kw & Hkw & Hsub). apply (H ct kws kw); [now left | assumption | assumption].
Qed.

(** C9. Detection is a case-insensitive substring test of each clause
    group's keywords: a clause name is reported missing exactly when it
    is the title of one of the six standard clause groups and the
    lowercased text contains none of that group's keywords (for force
    majeure: "force majeure", "act of god", "unforeseeable
    circumstances"), and the names are reported in the order of the
    table.  So a text whose lowercased form contains "force majeure" is
    never reported as missing the force majeure clause, and a text
    containing no keyword of any group is reported as missing all six. *)
Theorem missing_clause_detection (text : string) :
  let text_lower := lower text in
  (forall name : string,
      In name (detect_missing_clauses text) <->
      (name = "Limitation Of Liability" /\
       ~ Mentions ["limitation of liability"; "liability cap";
                   "damages limitation"] text_lower) \/
      (name = "Force Majeure" /\
       ~ Mentions ["force majeure"; "act of god";
                   "unforeseeable circumstances"] text_lower) \/
      (name = "Confidentiality" /\
       ~ Mentions ["confidentiality"; "non-disclosure";
                   "proprietary information"] text_lower) \/
      (name = "Dispute Resolution" /\
       ~ Mentions ["dispute resolution"; "arbitration"; "mediation";
                   "governing law"] text_lower) \/
      (name = "Termination Notice" /\
       ~ Mentions ["termination notice"; "notice period";
                   "advance notice"] text_lower) \/
      (name = "Intellectual Property" /\
       ~ Mentions ["intellectual property"; "ip rights";
                   "proprietary rights"] text_lower)) /\
  detect_missing_clauses text =
  filter (fun name =>
            if in_dec string_dec name (detect_missing_clauses text)
            then true else false)
         ["Limitation Of Liability"; "Force Majeure"; "Confidentiality";
          "Dispute Resolution"; "Termination Notice"; "Intellectual Property"] /\
  (Substring "force majeure" text_lower ->
   ~ In "Force Majeure" (detect_missing_clauses text)) /\
  ((forall clause_type keywords keyword,
       In (clause_type, keywords) standard_clauses -> In keyword keywords ->
       ~ Substring keyword text_lower) ->
   detect_missing_clauses text =
   ["Limitation Of Liability"; "Force Majeure"; "Confidentiality";
    "Dispute Resolution"; "Termination Notice"; "Intellectual Property"]).
Proof.
  intros text_lower.
  assert (Hin : forall name : string,
      In name (detect_missing_clauses text) <->
      (name = "Limitation Of Liability" /\
       ~ Mentions ["limitation of liability"; "liability cap";
                   "damages limitation"] text_lower) \/
      (name = "Force Majeure" /\
       ~ Mentions ["force majeure"; "act of god";
                   "unforeseeable circumstances"] text_lower) \/
      (name = "Confidentiality" /\
       ~ Mentions ["confidentiality"; "non-disclosure";
                   "proprietary information"] text_lower) \/
      (name = "Dispute Resolution" /\
       ~ Mentions ["dispute resolution"; "arbitration"; "mediation";
                   "governing law"] text_lower) \/
      (name = "Termination Notice" /\
       ~ Mentions ["termination notice"; "notice period";
                   "advance notice"] text_lower) \/
      (name = "Intellectual Property" /\
       ~ Mentions ["intellectual property"; "ip rights";
                   "proprietary rights"] text_lower)).
  { intros name. unfold detect_missing_clauses. fold text_lower.
    rewrite in_missing_from. split.
    - intros (ct & kws & Hentry & Hname & Hno). simpl in Hentry.
      destruct Hentry as [E | [E | [E | [E | [E | [E | []]]]]]];
        injection E as <- <-; vm_compute in Hname; subst name; tauto.
    - intros [[-> H] | [[-> H] | [[-> H] | [[-> H] | [[-> H] | [-> H]]]]]];
        eexists; eexists; (split; [|split; [|exact H]]);
        [ left | | right; left | | right; right; left | |
          right; right; right; left | | right; right; right; right; left | |
          right; right; right; right; right; left | ]; reflexivity. }
  split; [exact Hin|]. split; [|split].
  - unfold detect_missing_clauses, missing_from, standard_clauses.
    cbn [flat_map].
    repeat match goal with
           | |- context [existsb ?f ?l] => destruct (existsb f l)
           end; vm_compute; reflexivity.
  - intros Hsub Hm. apply Hin in Hm.
    destruct Hm as [[E _] | [[_ H] | [[E _] | [[E _] | [[E _] | [E _]]]]]];
      try discriminate.
    apply H. exists "force majeure". split; [now left | exact Hsub].
  - intros H. unfold detect_missing_clauses.
    rewrite (missing_from_all (lower text) standard_clauses H). reflexivity.
Qed.

(** At concrete texts: an upper-case mention of force majeure; a text
    that names the clause only by its synonym "act of God", which is not
    reported as missing force majeure and is reported as missing
    confidentiality; and a text with no standard-clause keyword at all. *)
Lemma missing_clause_detection_witness :
  ~ In "Force Majeure"
      (detect_missing_clauses "Clause 9: FORCE MAJEURE events excuse delay.") /\
  ~ In "Force Majeure"
      (detect_missing_clauses "Delay caused by an Act of God is excused.") /\
  In "Confidentiality"
     (detect_missing_clauses "Delay caused by an Act of God is excused.") /\
  detect_missing_clauses "The buyer pays the seller." =
  ["Limitation Of Liability"; "Force Majeure"; "Confidentiality";
   "Dispute Resolution"; "Termination Notice"; "Intellectual Property"].
Proof.
  split; [|split; [|split]].
  - apply (proj1 (proj2 (proj2 (missing_clause_detection _)))).
    apply str_in_spec. reflexivity.
  - intros H. apply (proj1 (missing_clause_detection _)) in H.
    destruct H as [[E _] | [[_ H] | [[E _] | [[E _] | [[E _] | [E _]]]]]];
      try discriminate.
    apply H. apply existsb_str_in. reflexivity.
  - apply (proj1 (missing_clause_detection _)). right. right. left.
    split; [reflexivity|]. apply mentions_decide. reflexivity.
  - apply (proj2 (proj2 (proj2 (missing_clause_detection _)))).
    intros ct kws kw Hentry Hkw. apply str_in_false.
    simpl in Hentry.
    repeat (destruct Hentry as [Hentry | Hentry];
            [injection Hentry as <- <-; simpl in Hkw;
             repeat (destruct Hkw as [<- | Hkw]; [reflexivity|]);
             contradiction|]).
    contradiction.
Defined.

End RiskClauses.

(* ================================================================== *)
(** * Facts about the rational model of floats *)
(* ================================================================== *)

Module NumFacts.

Import PyNum.
Open Scope Q_scope.

Lemma ge_true (x y : Q) : ge x y = true <-> y <= x.
Proof. apply Qle_bool_iff. Qed.

Lemma ge_false (x y : Q) : ge x y = false <-> x < y.
Proof.
  unfold ge. split; intros H.
  - apply Qnot_le_lt. intros K. apply Qle_bool_iff in K. congruence.
  - destruct (Qle_bool y x) eqn:E; [|reflexivity].
    apply Qle_bool_iff in E. lra.
Qed.

Lemma gt_true (x y : Q) : gt x y = true <-> y < x.
Proof.
  unfold gt. rewrite negb_true_iff. apply (ge_false y x).
Qed.

Lemma gt_false (x y : Q) : gt x y = false <-> x <= y.
Proof.
  unfold gt. rewrite negb_false_iff. apply Qle_bool_iff.
Qed.

(** [min(a, b)] is the smaller of the two. *)
Lemma py_min_spec (a b : Q) :
  (b < a /\ py_min a b = b) \/ (a <= b /\ py_min a b = a).
Proof.
  unfold py_min. destruct (gt a b) eqn:E.
  - left. split; [now apply gt_true | reflexivity].
  - right. split; [now apply gt_false | reflexivity].
Qed.

Lemma py_min_Qmin (a b : Q) : py_min a b == Qmin a b.
Proof.
  destruct (py_min_spec a b) as [[H ->] | [H ->]].
  - symmetry. apply Q.min_r. lra.
  - symmetry. now apply Q.min_l.
Qed.

Lemma py_min_mono (a x y : Q) : x <= y -> py_min a x <= py_min a y.
Proof.
  intros H.
  destruct (py_min_spec a x) as [[H1 ->] | [H1 ->]];
    destruct (py_min_spec a y) as [[H2 ->] | [H2 ->]]; lra.
Qed.

Lemma py_min_le_l (a x : Q) : py_min a x <= a.
Proof. destruct (py_min_spec a x) as [[H ->] | [H ->]]; lra. Qed.

(** Ratios with positive denominators compare by cross-multiplication. *)
Lemma ratio_le (s m s' m' : Q) :
  0 < m -> 0 < m' -> s * m' <= s' * m -> s / m <= s' / m'.
Proof.
  intros Hm Hm' H.
  apply Qle_shift_div_r; [assumption|].
  assert (E : s' / m' * m == s' * m / m') by (field; lra).
  rewrite E. apply Qle_shift_div_l; assumption.
Qed.

Lemma len_nil {A} : len (@nil A) = 0.
Proof. reflexivity. Qed.

Lemma len_nonneg {A} (l : list A) : 0 <= len l.
Proof.
  unfold len. change 0 with (inject_Z 0). rewrite <- Zle_Qle. lia.
Qed.

Lemma len_cons {A} (a : A) (l : list A) : len (a :: l) == len l + 1.
Proof.
  unfold len. change 1 with (inject_Z 1). rewrite <- inject_Z_plus.
  apply inject_Z_injective. simpl length. lia.
Qed.

Lemma len_app {A} (l1 l2 : list A) : len (l1 ++ l2)%list == len l1 + len l2.
Proof.
  unfold len. rewrite <- inject_Z_plus. apply inject_Z_injective.
  rewrite length_app. lia.
Qed.

Lemma len_pos {A} (a : A) (l : list A) : 0 < len (a :: l).
Proof. rewrite len_cons. pose proof (len_nonneg l). lra. Qed.

End NumFacts.

(* ================================================================== *)
(** * Overall score, level and confidence *)
(* ================================================================== *)

Module RiskScore.

Import PyStr PyNum Exn Spec NumFacts Risk.
Open Scope Q_scope.
Local Open Scope list_scope.

(** ** The accumulated score *)

Lemma fold_add_factor (l : list RiskFactor) (a : Q) :
  fold_left add_factor l a == a + weighted l.
Proof.
  unfold weighted. revert a. induction l as [|f l IH]; intros a; simpl.
  - lra.
  - rewrite IH, (IH (add_factor 0 f)). unfold add_factor. lra.
Qed.

Lemma raw_score_weighted (fs : list RiskFactor) (ms : list string) :
  raw_score fs ms = weighted fs + len ms * (1 # 2).
Proof. reflexivity. Qed.

Lemma weighted_snoc (fs : list RiskFactor) (f : RiskFactor) :
  weighted (fs ++ [f]) = weighted fs + risk_weights (level f) * confidence f.
Proof. unfold weighted. rewrite fold_left_app. reflexivity. Qed.

Lemma weighted_middle (pre post : list RiskFactor) (f : RiskFactor) :
  weighted (pre ++ f :: post) ==
  weighted pre + risk_weights (level f) * confidence f + weighted post.
Proof.
  unfold weighted at 1. rewrite fold_left_app. simpl fold_left.
  rewrite fold_add_factor.
  change (fold_left add_factor pre 0) with (weighted pre).
  unfold add_factor. lra.
Qed.

(** ** The normalizer *)

Lemma max_possible_pos (fs : list RiskFactor) (ms : list string) :
  fs <> [] \/ ms <> [] -> 0 < max_possible_score fs ms.
Proof.
  unfold max_possible_score. intros H.
  pose proof (len_nonneg fs). pose proof (len_nonneg ms).
  destruct H as [H | H].
  - destruct fs as [|f fs]; [contradiction|]. pose proof (len_pos f fs). lra.
  - destruct ms as [|m ms]; [contradiction|]. pose proof (len_pos m ms). lra.
Qed.

(** Outside the clean-document branch the score is the capped ratio. *)
Lemma score_ratio (fs : list RiskFactor) (ms : list string) :
  fs <> [] \/ ms <> [] ->
  score fs ms = py_min 10 (raw_score fs ms / max_possible_score fs ms * 10).
Proof.
  intros H. pose proof (max_possible_pos fs ms H) as Hpos.
  apply gt_true in Hpos. unfold score, calculate_overall_risk_score.
  destruct fs as [|f fs]; destruct ms as [|m ms];
    try (rewrite Hpos; reflexivity).
  destruct H; contradiction.
Qed.

Lemma capped_ratio_mono (s m s' m' : Q) :
  0 < m -> 0 < m' -> s * m' <= s' * m ->
  py_min 10 (s / m * 10) <= py_min 10 (s' / m' * 10).
Proof.
  intros Hm Hm' H. apply py_min_mono.
  pose proof (ratio_le s m s' m' Hm Hm' H). lra.
Qed.

Lemma capped_ratio_full (s m : Q) :
  0 < m -> m <= s -> py_min 10 (s / m * 10) = 10.
Proof.
  intros Hm H. unfold py_min.
  replace (gt 10 (s / m * 10)) with false; [reflexivity|].
  symmetry. apply gt_false.
  assert (1 <= s / m) by (apply Qle_shift_div_l; lra). lra.
Qed.

Lemma capped_ratio_below (s m b : Q) :
  0 < m -> b < 10 -> py_min 10 (s / m * 10) <= b -> s * 10 <= b * m.
Proof.
  intros Hm Hb H.
  assert (Hr : s / m * 10 <= b).
  { destruct (py_min_spec 10 (s / m * 10)) as [[_ E] | [_ E]]; rewrite E in H; lra. }
  assert (Es : s == s / m * m) by (field; lra).
  set (r := s / m) in *. rewrite Es. nra.
Qed.

Lemma rank_weights (l l' : RiskLevel) :
  (level_rank l <= level_rank l')%nat -> risk_weights l <= risk_weights l'.
Proof.
  destruct l, l'; simpl; intros H; try lra; exfalso; lia.
Qed.

Lemma level_at_least (s b : Q) : b <= s -> ge s b = true.
Proof. apply ge_true. Qed.

Lemma level_below (s b : Q) : s < b -> ge s b = false.
Proof. apply ge_false. Qed.

Lemma empty_cases {A B} (fs : list A) (ms : list B) :
  (fs = [] /\ ms = []) \/ (fs <> [] \/ ms <> []).
Proof.
  destruct fs; [destruct ms|].
  - left. split; reflexivity.
  - right. right. intros K. inversion K.
  - right. left. intros K. inversion K.
Qed.

(** ** Sums *)

Lemma fold_plus (l : list Q) (a : Q) : fold_left Qplus l a == a + total l.
Proof.
  revert a. induction l as [|x l IH]; intros a; simpl.
  - lra.
  - rewrite IH. lra.
Qed.

Lemma sum_total (l : list Q) : sum l == total l.
Proof. unfold sum. rewrite fold_plus. lra. Qed.

Lemma len_map {A B} (f : A -> B) (l : list A) : len (map f l) = len l.
Proof. unfold len. now rewrite length_map. Qed.

(** ** Score and level *)

(** C3. With no risk factor and at least one missing clause the score is
    exactly 10.0 and the level critical, whatever the number of missing
    clauses: the accumulated 0.5 per clause equals the normalizer. *)
Theorem missing_only_is_critical (missing : list string) :
  missing <> [] ->
  calculate_overall_risk_score [] missing = (10, CRITICAL).
Proof.
  intros H.
  assert (Hs : score [] missing = 10).
  { rewrite score_ratio by now right.
    apply capped_ratio_full; [apply max_possible_pos; now right|].
    rewrite raw_score_weighted. unfold max_possible_score, weighted.
    simpl fold_left. rewrite (@len_nil RiskFactor). lra. }
  unfold score in Hs.
  destruct missing as [|c cs]; [contradiction|].
  unfold calculate_overall_risk_score in *. simpl fst in Hs.
  rewrite Hs. reflexivity.
Qed.

Lemma missing_only_is_critical_witness :
  calculate_overall_risk_score []
    ["Force Majeure"; "Confidentiality"; "Termination Notice"] = (10, CRITICAL).
Proof. apply missing_only_is_critical. discriminate. Defined.

(** C4. With no risk factor and no missing clause the score is exactly
    2.0 and the level low, also as fields of the assessment that
    [assess_risk] returns for such a document. *)
Theorem clean_document_floor :
  calculate_overall_risk_score [] [] = (2, LOW) /\
  forall (sents : string -> list string) (format_1f : Q -> string)
         (text : string),
    analyze_semantic_risks sents text = Ok [] ->
    detect_missing_clauses text = [] ->
    exists a : RiskAssessment,
      assess_risk sents format_1f text = Ok a /\
      overall_score a = 2 /\ risk_level a = LOW /\
      risk_factors a = [] /\ missing_clauses a = [].
Proof.
  split; [reflexivity|].
  intros sents format_1f text Hf Hm. unfold assess_risk.
  rewrite Hf, Hm. simpl. eexists. split; [reflexivity|].
  repeat split.
Qed.

(** A document naming every standard clause and no risk pattern. *)
Lemma clean_document_floor_witness :
  exists a : RiskAssessment,
    assess_risk (fun text => [text]) (fun _ => "2.0")
      "Limitation of liability, force majeure, confidentiality, arbitration, notice period and IP rights are agreed."
    = Ok a /\
    overall_score a = 2 /\ risk_level a = LOW /\
    risk_factors a = [] /\ missing_clauses a = [].
Proof.
  apply (proj2 clean_document_floor); vm_compute; reflexivity.
Defined.

(** C5. The level is read off the normalized score with inclusive lower
    bounds: critical from 8.0, high from 6.0 up to 8.0, medium from 4.0
    up to 6.0, low below 4.0; exactly 8.0, 6.0 and 4.0 give critical,
    high and medium.  Every result of [calculate_overall_risk_score]
    pairs its score with that level. *)
Theorem threshold_boundaries :
  (forall s : Q,
      (8 <= s -> level_of_score s = CRITICAL) /\
      (6 <= s -> s < 8 -> level_of_score s = HIGH) /\
      (4 <= s -> s < 6 -> level_of_score s = MEDIUM) /\
      (s < 4 -> level_of_score s = LOW)) /\
  (level_of_score 8 = CRITICAL /\ level_of_score 6 = HIGH /\
   level_of_score 4 = MEDIUM) /\
  (forall (risk_factors : list RiskFactor) (missing_clauses : list string),
      snd (calculate_overall_risk_score risk_factors missing_clauses) =
      level_of_score
        (fst (calculate_overall_risk_score risk_factors missing_clauses))).
Proof.
  split; [|split].
  - intros s. unfold level_of_score. repeat split; intros.
    + now rewrite level_at_least.
    + rewrite (level_below s 8), (level_at_least s 6); trivial.
    + rewrite (level_below s 8), (level_below s 6), (level_at_least s 4);
        trivial; lra.
    + rewrite (level_below s 8), (level_below s 6), (level_below s 4);
        trivial; lra.
  - repeat split.
  - intros fs ms. unfold calculate_overall_risk_score.
    destruct fs, ms; reflexivity.
Qed.

(** The three boundary scores and one score below the lowest. *)
Lemma threshold_boundaries_witness :
  level_of_score 8 = CRITICAL /\
  level_of_score 6 = HIGH /\
  level_of_score 4 = MEDIUM /\
  level_of_score (7 # 2) = LOW.
Proof.
  split; [|split; [|split]].
  - apply (proj1 threshold_boundaries 8). lra.
  - apply (proj1 threshold_boundaries 6); lra.
  - apply (proj1 threshold_boundaries 4); lra.
  - apply (proj1 threshold_boundaries (7 # 2)). lra.
Defined.

(** C2, as the code has it. The score is a capped average, so one more
    factor can lower it: with no factor and one missing clause the score
    is 10.0, and a critical factor of confidence 0.85 on top brings it
    down to 4.75 / 5.5 * 10. *)
Lemma score_monotonicity_counterexample :
  ~ (score [] ["Force Majeure"]
     <= score ([] ++ [critical_factor]) ["Force Majeure"]).
Proof. vm_compute. intros H. apply H. reflexivity. Qed.

(** C2, amended. For the assessments the detector builds (every factor
    of confidence 0.85, at most six missing clauses): appending a
    critical factor of confidence 0.85 does not decrease the score when
    the score before is at most 8.5, and one more missing clause does
    not decrease the score.  For every assessment, raising the level of
    a factor of non-negative confidence does not decrease the score. *)
Theorem score_monotonicity :
  (forall (fs : list RiskFactor) (ms : list string) (f : RiskFactor),
      Forall (fun g => confidence g == 85 # 100) fs ->
      (length ms <= 6)%nat ->
      level f = CRITICAL -> confidence f == 85 # 100 ->
      score fs ms <= 17 # 2 ->
      score fs ms <= score (fs ++ [f]) ms) /\
  (forall (fs : list RiskFactor) (ms : list string) (clause : string),
      Forall (fun g => confidence g == 85 # 100) fs ->
      (length ms < 6)%nat ->
      score fs ms <= score fs (ms ++ [clause])) /\
  (forall (pre post : list RiskFactor) (ms : list string) (f : RiskFactor)
          (l : RiskLevel),
      (level_rank (level f) <= level_rank l)%nat -> 0 <= confidence f ->
      score (pre ++ f :: post) ms <= score (pre ++ with_level f l :: post) ms).
Proof.
  split; [|split].
  - intros fs ms f _ _ Hl Hc Hold.
    assert (Hne : fs ++ [f] <> []) by (destruct fs; intros K; inversion K).
    rewrite (score_ratio (fs ++ [f]) ms (or_introl Hne)).
    pose proof (max_possible_pos (fs ++ [f]) ms (or_introl Hne)) as Hpos'.
    assert (Hs' : raw_score (fs ++ [f]) ms == raw_score fs ms + (17 # 4)).
    { rewrite !raw_score_weighted, weighted_snoc, Hl, Hc. simpl risk_weights. lra. }
    assert (Hm' : max_possible_score (fs ++ [f]) ms == max_possible_score fs ms + 5).
    { unfold max_possible_score. rewrite len_app, len_cons, (@len_nil RiskFactor). lra. }
    destruct (empty_cases fs ms) as [[-> ->] | Hnb].
    + (* from the clean-document floor *)
      change (score [] []) with 2.
      apply Qle_trans with (y := py_min 10 (17 # 2)); [vm_compute; discriminate|].
      apply py_min_mono.
      assert (Hr : (17 # 2) / 10 <= raw_score ([] ++ [f]) [] / max_possible_score ([] ++ [f]) []).
      { apply ratio_le; [reflexivity | assumption |]. rewrite Hs', Hm'.
        vm_compute. discriminate. }
      assert (E : (17 # 2) / 10 == 17 # 20) by reflexivity.
      rewrite E in Hr. lra.
    + pose proof (max_possible_pos fs ms Hnb) as Hpos.
      rewrite (score_ratio fs ms Hnb) in Hold |- *.
      assert (Hb : (17 # 2) < 10) by reflexivity.
      pose proof (capped_ratio_below _ _ _ Hpos Hb Hold) as Hlow.
      apply capped_ratio_mono; trivial. rewrite Hs', Hm'. lra.
  - intros fs ms clause _ _.
    assert (Hne : ms ++ [clause] <> []) by (destruct ms; intros K; inversion K).
    rewrite (score_ratio fs (ms ++ [clause]) (or_intror Hne)).
    pose proof (max_possible_pos fs (ms ++ [clause]) (or_intror Hne)) as Hpos'.
    assert (Hs' : raw_score fs (ms ++ [clause]) == raw_score fs ms + (1 # 2)).
    { rewrite !raw_score_weighted, len_app, len_cons, (@len_nil string). lra. }
    assert (Hm' : max_possible_score fs (ms ++ [clause])
                  == max_possible_score fs ms + (1 # 2)).
    { unfold max_possible_score. rewrite len_app, len_cons, (@len_nil string). lra. }
    destruct (empty_cases fs ms) as [[-> ->] | Hnb].
    + change (score [] []) with 2.
      rewrite capped_ratio_full; [vm_compute; discriminate | assumption |].
      rewrite Hs', Hm'. vm_compute. discriminate.
    + pose proof (max_possible_pos fs ms Hnb) as Hpos.
      rewrite (score_ratio fs ms Hnb).
      destruct (Qlt_le_dec (max_possible_score fs ms) (raw_score fs ms)) as [Hbig | Hsmall].
      * rewrite (capped_ratio_full (raw_score fs ms)) by lra.
        rewrite capped_ratio_full; [apply Qle_refl | assumption |].
        rewrite Hs', Hm'. lra.
      * apply capped_ratio_mono; trivial. rewrite Hs', Hm'. lra.
  - intros pre post ms f l Hrank Hc.
    assert (Hne : forall x : RiskFactor, pre ++ x :: post <> [])
      by (intros x; destruct pre; intros K; inversion K).
    rewrite (score_ratio _ ms (or_introl (Hne f))).
    rewrite (score_ratio _ ms (or_introl (Hne (with_level f l)))).
    pose proof (max_possible_pos _ ms (or_introl (Hne f))) as Hpos.
    assert (Hm' : max_possible_score (pre ++ with_level f l :: post) ms
                  = max_possible_score (pre ++ f :: post) ms).
    { unfold max_possible_score, len. rewrite !length_app. reflexivity. }
    rewrite Hm'.
    apply capped_ratio_mono; trivial.
    assert (Hs : raw_score (pre ++ f :: post) ms
                 <= raw_score (pre ++ with_level f l :: post) ms).
    { rewrite !raw_score_weighted, !weighted_middle. simpl level. simpl confidence.
      pose proof (rank_weights _ _ Hrank).
      assert (risk_weights (level f) * confidence f <= risk_weights l * confidence f)
        by (apply Qmult_le_compat_r; assumption).
      lra. }
    apply Qmult_le_compat_r; [assumption | lra].
Qed.

(** The three parts at concrete assessments: a document with one medium
    factor and one missing clause (score 2.625 / 5.5 * 10) gains a
    critical factor, then a second missing clause, then has its medium
    factor raised to high. *)
Lemma score_monotonicity_witness :
  let medium := with_level critical_factor MEDIUM in
  score [medium] ["Force Majeure"]
  <= score ([medium] ++ [critical_factor]) ["Force Majeure"] /\
  score [medium] ["Force Majeure"]
  <= score [medium] (["Force Majeure"] ++ ["Confidentiality"]) /\
  score ([] ++ medium :: []) ["Force Majeure"]
  <= score ([] ++ with_level medium HIGH :: []) ["Force Majeure"].
Proof.
  intros medium. split; [|split].
  - apply (proj1 score_monotonicity).
    + constructor; [reflexivity | constructor].
    + simpl. lia.
    + reflexivity.
    + reflexivity.
    + vm_compute. discriminate.
  - apply (proj1 (proj2 score_monotonicity)).
    + constructor; [reflexivity | constructor].
    + simpl. lia.
  - apply (proj2 (proj2 score_monotonicity)).
    + simpl. lia.
    + vm_compute. discriminate.
Defined.

(** ** Confidence *)

(** C8. The confidence of an assessment is 0.8 when no risk factor was
    found and otherwise the arithmetic mean of the factors' confidences
    capped at 0.95; [assess_risk] stores exactly that value. *)
Theorem confidence_mean_capped :
  (forall fs : list RiskFactor,
      fs = [] -> _calculate_confidence fs = 8 # 10) /\
  (forall fs : list RiskFactor,
      fs <> [] ->
      _calculate_confidence fs
      == Qmin (95 # 100) (arithmetic_mean (map confidence fs))) /\
  (forall (sents : string -> list string) (format_1f : Q -> string)
          (text : string) (a : RiskAssessment),
      assess_risk sents format_1f text = Ok a ->
      assessment_confidence a = _calculate_confidence (risk_factors a)).
Proof.
  split; [|split].
  - intros fs ->. reflexivity.
  - intros fs Hne. destruct fs as [|f fs]; [contradiction|].
    unfold _calculate_confidence, arithmetic_mean.
    rewrite py_min_Qmin, len_map.
    apply Q.min_compat; [reflexivity|].
    rewrite sum_total. reflexivity.
  - intros sents format_1f text a. unfold assess_risk.
    destruct (analyze_semantic_risks sents text) as [fs | e]; simpl; [|discriminate].
    destruct (calculate_overall_risk_score fs (detect_missing_clauses text)).
    intros H. injection H as <-. reflexivity.
Qed.

(** Two factors as the detector builds them (confidence 0.85 each) have
    mean 0.85, under the cap; a document without any factor gets 0.8. *)
Lemma confidence_mean_capped_witness :
  _calculate_confidence [] = 8 # 10 /\
  _calculate_confidence [critical_factor; with_level critical_factor HIGH]
  == Qmin (95 # 100) (arithmetic_mean [85 # 100; 85 # 100]) /\
  exists a : RiskAssessment,
    assess_risk (fun text => [text]) (fun _ => "8.6")
      "The supplier accepts unlimited liability." = Ok a /\
    assessment_confidence a = _calculate_confidence (risk_factors a).
Proof.
  split; [|split].
  - apply (proj1 confidence_mean_capped). reflexivity.
  - apply (proj1 (proj2 confidence_mean_capped)). discriminate.
  - eexists. split; [vm_compute; reflexivity|].
    apply (proj2 (proj2 confidence_mean_capped)
             (fun text => [text]) (fun _ => "8.6")
             "The supplier accepts unlimited liability.").
    vm_compute. reflexivity.
Defined.

End RiskScore.

(* ================================================================== *)
(** * Question routing and the extractors *)
(* ================================================================== *)

Module QAFacts.

Import PyStr PyNum Exn Spec StrFacts QA.
Open Scope Q_scope.

Lemma any_in_spec (words : list string) (s : string) :
  any_in words s = true <-> Mentions words s.
Proof. apply existsb_str_in. Qed.

Lemma any_in_false (words : list string) (s : string) :
  any_in words s = false <-> ~ Mentions words s.
Proof. apply bool_reflect_false, any_in_spec. Qed.

(** Turn the outcome of one routing test into the matching proposition. *)
Ltac reflect_test E :=
  first [ apply any_in_spec in E | apply any_in_false in E ].

(** C6. Routing tests the lowercased question against the keyword lists
    in the order money, party, date, jurisdiction, termination, payment
    and hands the question to the extractor of the first list that
    matches: the money extractor on a money keyword, otherwise the party
    extractor on a party keyword, and so on down to the payment
    extractor, and the general extractor when no list matches.  So a
    question with a money keyword and a payment keyword goes to the money
    extractor and not to the payment extractor. *)
Theorem routing_priority (self : LegalQAEngine)
    (question country_preference : string) :
  let q := lower question in
  let money :=
    Mentions ["value"; "amount"; "price"; "cost"; "money"; "payment"] q in
  let party :=
    Mentions ["party"; "parties"; "who"; "company"; "organization"] q in
  let date :=
    Mentions ["date"; "when"; "expire"; "expiry"; "term"; "duration"] q in
  let jurisdiction :=
    Mentions ["jurisdiction"; "court"; "law"; "governing"; "legal"] q in
  let termination :=
    Mentions ["terminate"; "termination"; "end"; "cancel"] q in
  let payment := Mentions ["payment"; "pay"; "invoice"; "billing"] q in
  (route q = Money <-> money) /\
  (route q = Party <-> ~ money /\ party) /\
  (route q = Date <-> ~ money /\ ~ party /\ date) /\
  (route q = Jurisdiction <-> ~ money /\ ~ party /\ ~ date /\ jurisdiction) /\
  (route q = Termination <->
   ~ money /\ ~ party /\ ~ date /\ ~ jurisdiction /\ termination) /\
  (route q = Payment <->
   ~ money /\ ~ party /\ ~ date /\ ~ jurisdiction /\ ~ termination /\ payment) /\
  (route q = General <->
   ~ money /\ ~ party /\ ~ date /\ ~ jurisdiction /\ ~ termination /\ ~ payment) /\
  answer_question self question country_preference =
  dispatch (route q) self question country_preference /\
  (money ->
   answer_question self question country_preference =
   _answer_money_question self question country_preference) /\
  (~ money -> party ->
   answer_question self question country_preference =
   _answer_party_question self question) /\
  (~ money -> ~ party -> date ->
   answer_question self question country_preference =
   _answer_date_question self question) /\
  (~ money -> ~ party -> ~ date -> jurisdiction ->
   answer_question self question country_preference =
   _answer_jurisdiction_question self question) /\
  (~ money -> ~ party -> ~ date -> ~ jurisdiction -> termination ->
   answer_question self question country_preference =
   _answer_termination_question self question) /\
  (~ money -> ~ party -> ~ date -> ~ jurisdiction -> ~ termination ->
   payment ->
   answer_question self question country_preference =
   _answer_payment_question self question) /\
  (~ money -> ~ party -> ~ date -> ~ jurisdiction -> ~ termination ->
   ~ payment ->
   answer_question self question country_preference =
   _answer_general_question self question) /\
  (money -> payment ->
   route q = Money /\ route q <> Payment /\
   answer_question self question country_preference =
   _answer_money_question self question country_preference).
Proof.
  intros q money party date jurisdiction termination payment.
  assert (Hdispatch : answer_question self question country_preference =
                      dispatch (route q) self question country_preference)
    by reflexivity.
  rewrite Hdispatch. unfold route.
  destruct (any_in money_words q) eqn:E1; reflect_test E1; fold money in E1;
    [repeat split; intros; try discriminate; try reflexivity; tauto|].
  destruct (any_in party_words q) eqn:E2; reflect_test E2; fold party in E2;
    [repeat split; intros; try discriminate; try reflexivity; tauto|].
  destruct (any_in date_words q) eqn:E3; reflect_test E3; fold date in E3;
    [repeat split; intros; try discriminate; try reflexivity; tauto|].
  destruct (any_in jurisdiction_words q) eqn:E4; reflect_test E4;
    fold jurisdiction in E4;
    [repeat split; intros; try discriminate; try reflexivity; tauto|].
  destruct (any_in termination_words q) eqn:E5; reflect_test E5;
    fold termination in E5;
    [repeat split; intros; try discriminate; try reflexivity; tauto|].
  destruct (any_in payment_words q) eqn:E6; reflect_test E6; fold payment in E6;
    repeat split; intros; try discriminate; try reflexivity; tauto.
Qed.

(** The question of the spec ("payment" and "amount" are money keywords,
    "payment" and "pay" payment keywords), and one question each for the
    party, date, jurisdiction, termination, payment and general
    extractors. *)
Lemma routing_priority_witness :
  let engine := set_document init "The fee is $500." None in
  (route (lower "What is the payment amount due?") = Money /\
   route (lower "What is the payment amount due?") <> Payment /\
   answer_question engine "What is the payment amount due?" "International" =
   _answer_money_question engine "What is the payment amount due?"
     "International") /\
  answer_question engine "Who signed this?" "International" =
  _answer_party_question engine "Who signed this?" /\
  answer_question engine "When is it signed?" "International" =
  _answer_date_question engine "When is it signed?" /\
  answer_question engine "Which court decides?" "International" =
  _answer_jurisdiction_question engine "Which court decides?" /\
  answer_question engine "Can I cancel it?" "International" =
  _answer_termination_question engine "Can I cancel it?" /\
  answer_question engine "Is billing monthly?" "International" =
  _answer_payment_question engine "Is billing monthly?" /\
  answer_question engine "Is delivery included?" "International" =
  _answer_general_question engine "Is delivery included?".
Proof.
  intros engine. split; [|split; [|split; [|split; [|split; [|split]]]]].
  - destruct (routing_priority engine "What is the payment amount due?"
                "International")
      as (_ & _ & _ & _ & _ & _ & _ & _ & _ & _ & _ & _ & _ & _ & _ & H).
    apply H; apply any_in_spec; reflexivity.
  - destruct (routing_priority engine "Who signed this?" "International")
      as (_ & _ & _ & _ & _ & _ & _ & _ & _ & H & _).
    apply H; [apply any_in_false | apply any_in_spec]; reflexivity.
  - destruct (routing_priority engine "When is it signed?" "International")
      as (_ & _ & _ & _ & _ & _ & _ & _ & _ & _ & H & _).
    apply H; [apply any_in_false | apply any_in_false | apply any_in_spec];
      reflexivity.
  - destruct (routing_priority engine "Which court decides?" "International")
      as (_ & _ & _ & _ & _ & _ & _ & _ & _ & _ & _ & H & _).
    apply H; [apply any_in_false | apply any_in_false | apply any_in_false
             | apply any_in_spec]; reflexivity.
  - destruct (routing_priority engine "Can I cancel it?" "International")
      as (_ & _ & _ & _ & _ & _ & _ & _ & _ & _ & _ & _ & H & _).
    apply H; [apply any_in_false | apply any_in_false | apply any_in_false
             | apply any_in_false | apply any_in_spec]; reflexivity.
  - destruct (routing_priority engine "Is billing monthly?" "International")
      as (_ & _ & _ & _ & _ & _ & _ & _ & _ & _ & _ & _ & _ & H & _).
    apply H; [apply any_in_false | apply any_in_false | apply any_in_false
             | apply any_in_false | apply any_in_false | apply any_in_spec];
      reflexivity.
  - destruct (routing_priority engine "Is delivery included?" "International")
      as (_ & _ & _ & _ & _ & _ & _ & _ & _ & _ & _ & _ & _ & _ & H & _).
    apply H; apply any_in_false; reflexivity.
Defined.

(** ** The engine before any document is loaded *)

(** The word pattern of the general extractor compiles, so tokenizing
    the question never raises. *)
Lemma findall_words_ok (text : string) :
  exists words : list string, Re.findall "\b\w+\b" text = Ok words.
Proof.
  unfold Re.findall, Re.finditer.
  destruct (Re.compile "\b\w+\b") as [[r n] | e] eqn:E.
  - simpl. eexists. reflexivity.
  - vm_compute in E. discriminate.
Qed.

(** No word longer than three characters occurs in the empty sentence. *)
Lemma no_word_in_empty (words : list string) :
  filter (fun word => str_in word "" && (3 <? String.length word)%nat) words = [].
Proof.
  induction words as [|w words IH]; [reflexivity|].
  cbn [filter]. rewrite IH.
  destruct (str_in w "") eqn:E; [|reflexivity].
  apply str_in_empty in E. subst w. reflexivity.
Qed.

Lemma relevant_empty_document (words : list string) :
  relevant words [""] = [].
Proof.
  unfold relevant. simpl flat_map.
  change (lower "") with "". rewrite no_word_in_empty. reflexivity.
Qed.

Lemma money_on_empty_document (question country_preference : string) :
  _answer_money_question init question country_preference =
  Ok (QAResult_default question
        "No monetary amounts found in the document." (3 # 10)).
Proof.
  unfold _answer_money_question, currency_patterns, dict_get.
  repeat match goal with
         | |- context [String.eqb ?k country_preference] =>
             destruct (String.eqb k country_preference)
         end; vm_compute; reflexivity.
Qed.

Lemma party_on_empty_document (question : string) :
  _answer_party_question init question =
  Ok (QAResult_default question
        "No clear parties or organizations identified in the document."
        (3 # 10)).
Proof.
  unfold _answer_party_question.
  destruct (any_in _ (lower question)); vm_compute; reflexivity.
Qed.

Lemma general_on_empty_document (question : string) :
  _answer_general_question init question =
  Ok (QAResult_default question general_not_found (2 # 10)).
Proof.
  unfold _answer_general_question.
  destruct (findall_words_ok (lower question)) as [words ->].
  replace (Re.split "[.!?]+" (document_text init)) with (Ok [""])
    by (vm_compute; reflexivity).
  cbn [bind]. rewrite relevant_empty_document. reflexivity.
Qed.

(** C10. A new engine holds the empty document, and [answer_question] on
    it returns, for every question and preference, the "not found"
    result of the extractor the question is routed to: confidence 0.3
    for the six pattern extractors and 0.2 for the general one, with
    empty context and no sources.  No call raises. *)
Theorem answer_before_load (question country_preference : string) :
  document_text init = "" /\
  answer_question init question country_preference =
  Ok (mkQAResult question
        match route (lower question) with
        | Money => "No monetary amounts found in the document."
        | Party => "No clear parties or organizations identified in the document."
        | Date => "No specific dates found in the document."
        | Jurisdiction => "No clear jurisdiction or governing law clauses found."
        | Termination => "No specific termination clauses found."
        | Payment => "No specific payment terms found."
        | General =>
            "I couldn't find specific information to answer that question. Please try rephrasing or ask about parties, amounts, dates, or jurisdiction."
        end
        match route (lower question) with
        | General => 2 # 10
        | _ => 3 # 10
        end
        "" []).
Proof.
  split; [reflexivity|].
  unfold answer_question.
  destruct (route (lower question)); unfold dispatch.
  - apply money_on_empty_document.
  - apply party_on_empty_document.
  - vm_compute. reflexivity.
  - vm_compute. reflexivity.
  - vm_compute. reflexivity.
  - vm_compute. reflexivity.
  - apply general_on_empty_document.
Qed.

(** ** The currency filter *)

(** C1, as the code has it. The pattern table is keyed by currency code
    ("USD", "INR", ...) while callers pass a country ("India", "USA",
    ...): the preference "India" is not a key, so the money extractor
    falls back to the patterns of all currencies and answers exactly as
    for "International".  On the document "$500" both give the positive
    answer listing "$500" with confidence 0.9; only the key "INR" gives
    the negative answer with confidence 0.3. *)
Theorem currency_filter_by_code_only :
  let engine := set_document init "$500" None in
  let q := "What is the contract value?" in
  answer_question engine q "India" =
  Ok (mkQAResult q "Found monetary amounts: $500" (9 # 10) "$500" ["$500"]) /\
  answer_question engine q "International" =
  Ok (mkQAResult q "Found monetary amounts: $500" (9 # 10) "$500" ["$500"]) /\
  answer_question engine q "INR" =
  Ok (mkQAResult q "No monetary amounts found in the document." (3 # 10) "" []) /\
  forall (self : LegalQAEngine) (question : string),
    _answer_money_question self question "India" =
    _answer_money_question self question "International".
Proof.
  intros engine q. split; [|split; [|split]].
  - vm_compute. reflexivity.
  - vm_compute. reflexivity.
  - vm_compute. reflexivity.
  - intros self question. reflexivity.
Qed.

End QAFacts.

(* ================================================================== *)
(** * Facts about the matcher *)
(* ================================================================== *)

Module ReFacts.

Import PyStr Exn Re ReAnalysis.
Local Open Scope nat_scope.

Lemma match_re_repeat ic lo hi greedy r st k :
  match_re ic (Repeat lo hi greedy r) st k =
  repeat_loop (match_re ic r) lo hi greedy k (lo + length (rest st) + 3) 0 None st.
Proof. reflexivity. Qed.

Lemma has_span_cons n m sp l :
  has_span n l = true -> has_span n ((m, sp) :: l) = true.
Proof.
  unfold has_span. simpl. destruct (m =? n); [reflexivity | trivial].
Qed.

Lemma has_span_here n sp l : has_span n ((n, sp) :: l) = true.
Proof. unfold has_span. simpl. now rewrite Nat.eqb_refl. Qed.

Section Reach.
Variable n : nat.
Variable ic : bool.

Lemma reaches_eat p st k st' :
  eat p st k = Some st' -> reaches n false st k st'.
Proof.
  unfold eat. destruct (rest st) as [|c rest']; [discriminate|].
  destruct (p c); [|discriminate]. intros H.
  eexists. split; [exact H|]. split; [trivial | discriminate].
Qed.

Lemma reaches_loop body lo hi greedy k sets :
  (forall st k' st', body st k' = Some st' -> reaches n sets st k' st') ->
  forall fuel count last st st',
    repeat_loop body lo hi greedy k fuel count last st = Some st' ->
    reaches n ((count <? lo) && sets) st k st'.
Proof.
  intros Hbody. induction fuel as [|fuel IH]; intros count last st st' H; simpl in H.
  - destruct (lo <=? count) eqn:E; [|discriminate].
    exists st. split; [exact H|]. split; [trivial|].
    apply Nat.leb_le in E. intros K. apply andb_true_iff in K as [K _].
    apply Nat.ltb_lt in K. lia.
  - destruct (count <? lo) eqn:E.
    + apply Hbody in H as (s1 & H1 & Hkeep & Hset).
      apply IH in H1 as (s2 & H2 & Hkeep2 & _).
      exists s2. split; [exact H2|]. split; [auto|].
      simpl. intros K. auto.
    + assert (Hmore : forall s,
                 (if below count hi && negb (same_place last (pos st))
                  then body st (fun st' => repeat_loop body lo hi greedy k fuel
                                             (S count) (Some (pos st)) st')
                  else None) = Some s ->
                 reaches n false st k s).
      { intros s Hs. destruct (below count hi && negb (same_place last (pos st)));
          [|discriminate].
        apply Hbody in Hs as (s1 & H1 & Hkeep & _).
        apply IH in H1 as (s2 & H2 & Hkeep2 & _).
        exists s2. split; [exact H2|]. split; [auto | discriminate]. }
      assert (Hstop : forall s, k st = Some s -> reaches n false st k s).
      { intros s Hs. exists st. split; [exact Hs|]. split; [trivial | discriminate]. }
      simpl. destruct greedy.
      * destruct (if below count hi && negb (same_place last (pos st)) then _ else None)
          as [s|] eqn:Em.
        -- injection H as <-. now apply Hmore.
        -- now apply Hstop.
      * destruct (k st) as [s|] eqn:Ek.
        -- injection H as <-. now apply Hstop.
        -- now apply Hmore.
Qed.

Lemma reaches_match_re (r : regex) :
  forall st k st',
    match_re ic r st k = Some st' -> reaches n (always_sets n r) st k st'.
Proof.
  induction r as [ | c | | neg items | | r1 IH1 r2 IH2 | r1 IH1 r2 IH2
                   | lo hi greedy r IH | m r IH | r IH ];
    intros st k st' H.
  - exists st. split; [exact H|]. split; [trivial | discriminate].
  - now apply reaches_eat in H.
  - now apply reaches_eat in H.
  - now apply reaches_eat in H.
  - simpl in H. destruct (xorb _ _); [|discriminate].
    exists st. split; [exact H|]. split; [trivial | discriminate].
  - simpl in H. apply IH1 in H as (s1 & H1 & Hkeep1 & Hset1).
    apply IH2 in H1 as (s2 & H2 & Hkeep2 & Hset2).
    exists s2. split; [exact H2|]. split; [auto|].
    simpl. intros K. apply orb_true_iff in K as [K | K]; auto.
  - simpl in H. destruct (match_re ic r1 st k) as [s|] eqn:E.
    + injection H as <-. apply IH1 in E as (s1 & H1 & Hkeep & Hset).
      exists s1. split; [exact H1|]. split; [auto|].
      simpl. intros K. apply andb_true_iff in K as [K _]. auto.
    + apply IH2 in H as (s1 & H1 & Hkeep & Hset).
      exists s1. split; [exact H1|]. split; [auto|].
      simpl. intros K. apply andb_true_iff in K as [_ K]. auto.
  - rewrite match_re_repeat in H.
    apply (reaches_loop _ _ _ _ _ (always_sets n r)) in H; [|exact IH].
    destruct H as (s1 & H1 & Hkeep & Hset).
    exists s1. split; [exact H1|]. split; [auto|].
    cbn [always_sets]. intros K. apply Hset. apply andb_true_iff in K as [K1 K2].
    rewrite K2, andb_true_r. apply Nat.ltb_lt. apply Nat.leb_le in K1. lia.
  - simpl in H. apply IH in H as (s1 & H1 & Hkeep & Hset).
    eexists. split; [exact H1|]. simpl. split.
    + intros K. apply has_span_cons. auto.
    + intros K. apply orb_true_iff in K as [K | K].
      * apply Nat.eqb_eq in K. subst m. apply has_span_here.
      * apply has_span_cons. auto.
  - simpl in H. destruct (match_re ic r st _); [discriminate|].
    exists st. split; [exact H|]. split; [trivial | discriminate].
Qed.

End Reach.

Lemma search_sets n ic r :
  always_sets n r = true ->
  forall ahead must_advance p before start st',
    search ic r must_advance p before ahead = Some (start, st') ->
    has_span n (spans st') = true.
Proof.
  intros Hr. induction ahead as [|c ahead IH];
    intros must_advance p before start st' H; simpl in H.
  - destruct (match_re ic r _ _) as [s|] eqn:E; [|discriminate].
    injection H as _ <-.
    apply (reaches_match_re n) in E as (s1 & H1 & _ & Hset).
    destruct (must_advance && _); [discriminate|]. injection H1 as <-. auto.
  - destruct (match_re ic r _ _) as [s|] eqn:E.
    + injection H as _ <-.
      apply (reaches_match_re n) in E as (s1 & H1 & _ & Hset).
      destruct (must_advance && _); [discriminate|]. injection H1 as <-. auto.
    + eapply IH. exact H.
Qed.

Lemma scan_ngroups ic r ngroups text :
  forall fuel must_advance st m,
    In m (scan fuel ic r ngroups text must_advance st) -> m_ngroups m = ngroups.
Proof.
  induction fuel as [|fuel IH]; intros must_advance st m H; simpl in H; [contradiction|].
  destruct (search ic r must_advance (pos st) (prev st) (rest st)) as [[start st']|];
    [|contradiction].
  destruct H as [<- | H]; [reflexivity | eauto].
Qed.

Lemma scan_sets n ic r ngroups text :
  always_sets n r = true ->
  forall fuel must_advance st m,
    In m (scan fuel ic r ngroups text must_advance st) ->
    has_span n (m_spans m) = true.
Proof.
  intros Hr. induction fuel as [|fuel IH]; intros must_advance st m H; simpl in H;
    [contradiction|].
  destruct (search ic r must_advance (pos st) (prev st) (rest st))
    as [[start st']|] eqn:E; [|contradiction].
  destruct H as [<- | H]; [|eauto].
  simpl. eapply search_sets; eassumption.
Qed.

Lemma finditer_ok pattern text ic :
  compiles pattern = true -> exists ms, finditer pattern text ic = Ok ms.
Proof.
  unfold compiles, finditer. destruct (compile pattern) as [[r g]|e]; [|discriminate].
  intros _. simpl. eexists. reflexivity.
Qed.

Lemma group1_safe_compiles pattern : group1_safe pattern = true -> compiles pattern = true.
Proof.
  unfold group1_safe, compiles. destruct (compile pattern) as [[r g]|e]; trivial.
Qed.

Lemma finditer_group1 pattern text ic ms m :
  group1_safe pattern = true ->
  finditer pattern text ic = Ok ms -> In m ms ->
  m_ngroups m = 0 \/ exists sp, lookup_span 1 (m_spans m) = Some sp.
Proof.
  unfold group1_safe, finditer.
  destruct (compile pattern) as [[r g]|e]; [|discriminate].
  simpl. intros Hsafe H Hin. injection H as <-.
  apply orb_true_iff in Hsafe as [Hz | Hs].
  - left. apply Nat.eqb_eq in Hz. subst g. eapply scan_ngroups. exact Hin.
  - right. pose proof (scan_sets 1 _ _ _ _ Hs _ _ _ _ Hin) as K.
    unfold has_span in K. destruct (lookup_span 1 (m_spans m)) as [sp|]; [|discriminate].
    now exists sp.
Qed.

Lemma mapM_ok {A B} (f : A -> result B) (l : list A) :
  (forall x, In x l -> exists y, f x = Ok y) -> exists ys, mapM f l = Ok ys.
Proof.
  induction l as [|a l IH]; intros H; simpl.
  - now exists [].
  - destruct (H a (or_introl eq_refl)) as [b ->].
    destruct IH as [bs ->]; [intros x Hx; apply H; now right|].
    simpl. now exists (b :: bs).
Qed.

Lemma forallb_In {A} (p : A -> bool) (l : list A) (x : A) :
  forallb p l = true -> In x l -> p x = true.
Proof. intros H Hin. rewrite forallb_forall in H. auto. Qed.

Lemma mapM_in {A B} (f : A -> result (list B)) (l : list A) (ys : list (list B)) :
  mapM f l = Ok ys ->
  forall y, In y (concat ys) <->
            exists x yx, In x l /\ f x = Ok yx /\ In y yx.
Proof.
  revert ys. induction l as [|a l IH]; intros ys H y; simpl in H.
  - injection H as <-. simpl. split; [contradiction | intros (x & yx & [] & _)].
  - destruct (f a) as [b|e] eqn:Ea; [|discriminate]. simpl in H.
    destruct (mapM f l) as [bs|e] eqn:El; [|discriminate]. simpl in H.
    injection H as <-. simpl. rewrite in_app_iff, (IH bs eq_refl). split.
    + intros [Hy | (x & yx & Hx & Hf & Hy)].
      * exists a, b. auto.
      * exists x, yx. auto.
    + intros (x & yx & [<- | Hx] & Hf & Hy).
      * left. congruence.
      * right. exists x, yx. auto.
Qed.

Lemma mapM_forall {A B} (P : B -> Prop) (f : A -> result (list B)) (l : list A) :
  (forall x, In x l -> exists ys, f x = Ok ys /\ Forall P ys) ->
  exists yss, mapM f l = Ok yss /\ Forall P (concat yss).
Proof.
  induction l as [|a l IH]; intros H; simpl.
  - exists []. split; [reflexivity | constructor].
  - destruct (H a (or_introl eq_refl)) as (ys & -> & Hys).
    destruct IH as (yss & -> & Hyss); [intros x Hx; apply H; now right|].
    simpl. exists (ys :: yss). split; [reflexivity|].
    simpl. apply Forall_app. now split.
Qed.

End ReFacts.

(* ================================================================== *)
(** * The answer of every extractor *)
(* ================================================================== *)

Module QATotal.

Import PyStr PyNum Exn Re ReAnalysis QAShape ReFacts QA.

Lemma in_unique (x : string) (l : list string) : In x (unique l) <-> In x l.
Proof.
  induction l as [|a l IH]; simpl; [tauto|].
  rewrite filter_In, IH, negb_true_iff, String.eqb_neq.
  destruct (string_dec a x) as [-> | Hne]; tauto.
Qed.

Lemma NoDup_unique (l : list string) : NoDup (unique l).
Proof.
  induction l as [|a l IH]; simpl; constructor.
  - rewrite filter_In, negb_true_iff, String.eqb_neq. tauto.
  - now apply NoDup_filter.
Qed.

Lemma sweep_ok (patterns : list string) (text : string) (ic : bool) :
  forallb compiles patterns = true ->
  exists ms, sweep patterns text ic = Ok ms.
Proof.
  intros H. unfold sweep.
  destruct (mapM_ok (fun pattern => finditer pattern text ic) patterns) as [pp ->].
  - intros p Hp. apply finditer_ok. eapply forallb_In; eassumption.
  - simpl. eexists. reflexivity.
Qed.

Lemma group1_or_all_ok (m : Match) :
  m_ngroups m = 0%nat \/ (exists sp, lookup_span 1 (m_spans m) = Some sp) ->
  exists s, group1_or_all m = Ok s.
Proof.
  unfold group1_or_all, group. intros [Hz | [[i j] Hsp]].
  - rewrite Hz. simpl. eexists. reflexivity.
  - rewrite Hsp. destruct (0 <? m_ngroups m)%nat; eexists; reflexivity.
Qed.

Lemma found_shape (q : string) (e : Extractor) (answer context : string)
    (x : string) (xs : list string) :
  answer_shape q e
    (mkQAResult q answer (found_confidence e) context (unique (x :: xs))).
Proof.
  split; [reflexivity|]. right. split; [|split].
  - simpl. discriminate.
  - apply NoDup_unique.
  - reflexivity.
Qed.

Lemma not_found_shape (q : string) (e : Extractor) (answer : string) :
  answer_shape q e (QAResult_default q answer (not_found_confidence e)).
Proof. split; [reflexivity|]. left. repeat split. Qed.

Lemma money_shape (self : LegalQAEngine) (q pref : string) :
  exists r, _answer_money_question self q pref = Ok r /\ answer_shape q Money r.
Proof.
  unfold _answer_money_question.
  set (patterns := match dict_get pref currency_patterns with
                   | Some ps => ps
                   | None => flat_map snd currency_patterns
                   end).
  assert (Hc : forallb compiles patterns = true).
  { unfold patterns, currency_patterns, dict_get.
    repeat match goal with
           | |- context [String.eqb ?k pref] => destruct (String.eqb k pref)
           end; vm_compute; reflexivity. }
  destruct (sweep_ok patterns (document_text self) true Hc) as [ms ->].
  cbn [bind]. destruct (map group0 ms) as [|x xs].
  - eexists. split; [reflexivity|]. apply (not_found_shape q Money).
  - eexists. split; [reflexivity|]. apply (found_shape q Money).
Qed.

Lemma party_shape (self : LegalQAEngine) (q : string) :
  exists r, _answer_party_question self q = Ok r /\ answer_shape q Party r.
Proof.
  unfold _answer_party_question.
  destruct (sweep_ok entity_patterns_companies (document_text self) false)
    as [ms ->]; [vm_compute; reflexivity|].
  cbn [bind].
  assert (Hp : exists people,
             (if any_in ["person"; "individual"; "signatory"; "representative"] (lower q)
              then ms0 <- sweep entity_patterns_people (document_text self) false ;;
                   Ok (map (fun m => strip (group0 m)) ms0)
              else Ok []) = Ok people).
  { destruct (any_in _ (lower q)); [|now exists []].
    destruct (sweep_ok entity_patterns_people (document_text self) false)
      as [ms0 ->]; [vm_compute; reflexivity|].
    cbn [bind]. eexists. reflexivity. }
  destruct Hp as [people ->]. cbn [bind].
  destruct (map (fun m => strip (group0 m)) ms ++ people)%list as [|x xs].
  - eexists. split; [reflexivity|]. apply (not_found_shape q Party).
  - eexists. split; [reflexivity|]. apply (found_shape q Party).
Qed.

Lemma date_shape (self : LegalQAEngine) (q : string) :
  exists r, _answer_date_question self q = Ok r /\ answer_shape q Date r.
Proof.
  unfold _answer_date_question.
  destruct (sweep_ok date_patterns (document_text self) true)
    as [ms ->]; [vm_compute; reflexivity|].
  cbn [bind]. destruct (map group0 ms) as [|x xs].
  - eexists. split; [reflexivity|]. apply (not_found_shape q Date).
  - eexists. split; [reflexivity|]. apply (found_shape q Date).
Qed.

Lemma group_shape (self : LegalQAEngine) (q : string) (e : Extractor)
    (patterns : list string) (w : nat) (found not_found : string) :
  forallb group1_safe patterns = true ->
  not_found_confidence e = 3 # 10 ->
  exists r,
    answer_with_group self q patterns w found (found_confidence e) not_found = Ok r /\
    answer_shape q e r.
Proof.
  intros Hsafe Hnf. unfold answer_with_group.
  match goal with
  | |- context [mapM ?f patterns] => destruct (mapM_ok f patterns) as [pp ->]
  end.
  - intros p Hp. pose proof (forallb_In _ _ _ Hsafe Hp) as Hs.
    destruct (finditer_ok p (document_text self) true (group1_safe_compiles _ Hs))
      as [ms Hms].
    rewrite Hms. cbn [bind]. apply mapM_ok. intros m Hm.
    destruct (group1_or_all_ok m (finditer_group1 _ _ _ _ _ Hs Hms Hm)) as [s ->].
    cbn [bind]. eexists. reflexivity.
  - cbn [bind]. destruct (map fst (concat pp)) as [|x xs].
    + eexists. split; [reflexivity|]. rewrite <- Hnf. apply not_found_shape.
    + eexists. split; [reflexivity|]. apply found_shape.
Qed.

Lemma general_shape (self : LegalQAEngine) (q : string) :
  exists r, _answer_general_question self q = Ok r /\ answer_shape q General r.
Proof.
  unfold _answer_general_question, findall, split.
  destruct (finditer_ok "\b\w+\b" (lower q) false) as [ws ->]; [vm_compute; reflexivity|].
  destruct (finditer_ok "[.!?]+" (document_text self) false) as [ss ->];
    [vm_compute; reflexivity|].
  cbn [bind]. destruct (relevant _ _) as [|first others].
  - eexists. split; [reflexivity|]. apply (not_found_shape q General).
  - eexists. split; [reflexivity|]. split; [reflexivity|]. right.
    split; [discriminate|]. split; [|reflexivity].
    constructor; [intros []|constructor].
Qed.

Lemma answer_question_shape (self : LegalQAEngine) (q pref : string) :
  exists r, answer_question self q pref = Ok r /\
            answer_shape q (route (lower q)) r.
Proof.
  unfold answer_question. destruct (route (lower q)); unfold dispatch.
  - apply money_shape.
  - apply party_shape.
  - apply date_shape.
  - apply (group_shape self q Jurisdiction); [vm_compute|]; reflexivity.
  - apply (group_shape self q Termination); [vm_compute|]; reflexivity.
  - apply (group_shape self q Payment); [vm_compute|]; reflexivity.
  - apply general_shape.
Qed.

End QATotal.

(* ================================================================== *)
(** * Further properties of the question-answering engine *)
(* ================================================================== *)

Module QAExtra.

Import PyStr PyNum Exn Re ReAnalysis QAShape ReFacts QATotal QA Spec StrFacts.
Open Scope Q_scope.

(** X1. [answer_question] never raises: whatever document is loaded,
    whatever the question and the preference, it returns a result, and
    the result carries the question asked.  (Every pattern of the tables
    compiles, and every match of a pattern with a group closes group 1,
    so the [strip] of the captured text always has a string.) *)
Theorem answer_question_never_raises (self : LegalQAEngine)
    (question country_preference : string) :
  exists r : QAResult,
    answer_question self question country_preference = Ok r /\
    QA.question r = question.
Proof.
  destruct (answer_question_shape self question country_preference)
    as (r & Hr & Hq & _).
  now exists r.
Qed.

(** X2. An answer without sources has an empty context and confidence
    at most 0.3; an answer with sources has confidence at least 0.6.  So
    the test [qa_result.confidence < 0.5] by which app.py warns of a low
    confidence answer holds exactly for the "not found" answers. *)
Theorem low_confidence_iff_not_found (self : LegalQAEngine)
    (question country_preference : string) :
  exists r : QAResult,
    answer_question self question country_preference = Ok r /\
    (sources r = [] -> context r = "" /\ confidence r <= 3 # 10) /\
    (sources r <> [] -> 6 # 10 <= confidence r) /\
    (confidence r < 1 # 2 <-> sources r = []).
Proof.
  destruct (answer_question_shape self question country_preference)
    as (r & Hr & _ & Hshape).
  exists r. split; [exact Hr|].
  destruct Hshape as [(Hs & Hc & Hconf) | (Hs & _ & Hconf)]; rewrite Hconf.
  - assert (not_found_confidence (route (lower question)) <= 3 # 10)
      by (destruct (route (lower question)); vm_compute; discriminate).
    repeat split; intros; try assumption; try contradiction; lra.
  - assert (6 # 10 <= found_confidence (route (lower question)))
      by (destruct (route (lower question)); vm_compute; discriminate).
    repeat split; intros; try assumption; try contradiction; lra.
Qed.

(** X3. The sources of an answer are pairwise distinct. *)
Theorem sources_distinct (self : LegalQAEngine)
    (question country_preference : string) :
  exists r : QAResult,
    answer_question self question country_preference = Ok r /\
    NoDup (sources r).
Proof.
  destruct (answer_question_shape self question country_preference)
    as (r & Hr & _ & Hshape).
  exists r. split; [exact Hr|].
  destruct Hshape as [(Hs & _) | (_ & Hn & _)]; [rewrite Hs; constructor | exact Hn].
Qed.

(** X4. [set_document] replaces the document: after it the answers are
    those of a new engine loaded with the same text, so nothing of an
    earlier document remains and the entities passed along play no
    part. *)
Theorem load_replaces_document (self : LegalQAEngine) (text : string)
    (entities : option (list (string * list string)))
    (question country_preference : string) :
  answer_question (set_document self text entities) question country_preference =
  answer_question (set_document init text None) question country_preference.
Proof.
  unfold answer_question. destruct (route (lower question)); reflexivity.
Qed.

Lemma substring_trans (a b c : string) :
  Substring a b -> Substring b c -> Substring a c.
Proof.
  intros (p1 & q1 & ->) (p2 & q2 & ->).
  exists (p2 ++ p1), (q1 ++ q2).
  induction p2 as [|ch p2 IH]; simpl.
  - clear. induction p1 as [|ch p1 IH]; simpl.
    + induction a as [|ch a IH]; simpl; [reflexivity | now f_equal].
    + now f_equal.
  - now f_equal.
Qed.

(** X5. Two keyword lists are shadowed by earlier ones.  A question
    with "terminate" or "termination" contains the date keyword "term"
    and never reaches the termination extractor, which only "end" or
    "cancel" can reach; a question with "payment" is a money question
    and never reaches the payment extractor, which only "pay", "invoice"
    or "billing" can reach. *)
Theorem shadowed_keywords (question : string) :
  let q := lower question in
  (Mentions ["terminate"; "termination"] q -> route q <> Termination) /\
  (Substring "payment" q -> route q <> Payment) /\
  (route q = Termination -> Mentions ["end"; "cancel"] q) /\
  (route q = Payment -> Mentions ["pay"; "invoice"; "billing"] q).
Proof.
  intros q.
  assert (Hterm : Mentions ["terminate"; "termination"] q ->
                  any_in date_words q = true).
  { intros (w & Hw & Hsub). apply existsb_str_in. exists "term". split.
    - simpl. tauto.
    - apply substring_trans with (b := w); [|exact Hsub].
      destruct Hw as [<- | [<- | []]].
      + now exists "", "inate".
      + now exists "", "ination". }
  assert (Hpay : Substring "payment" q -> any_in money_words q = true).
  { intros Hsub. apply existsb_str_in. exists "payment". split; [simpl; tauto | exact Hsub]. }
  unfold route.
  destruct (any_in money_words q) eqn:E1.
  { repeat split; intros; discriminate. }
  destruct (any_in party_words q) eqn:E2.
  { repeat split; intros; try discriminate. }
  destruct (any_in date_words q) eqn:E3.
  { repeat split; intros; try discriminate. }
  destruct (any_in jurisdiction_words q) eqn:E4.
  { repeat split; intros; try discriminate. }
  destruct (any_in termination_words q) eqn:E5.
  { split; [|split; [|split]]; intros H; try discriminate.
    - apply Hterm in H. discriminate.
    - apply existsb_str_in in E5 as (w & Hw & Hsub).
      destruct Hw as [<- | [<- | Hw]].
      + exfalso. assert (false = true); [|discriminate].
        apply Hterm. exists "terminate". split; [simpl; tauto | exact Hsub].
      + exfalso. assert (false = true); [|discriminate].
        apply Hterm. exists "termination". split; [simpl; tauto | exact Hsub].
      + exists w. split; [exact Hw | exact Hsub]. }
  destruct (any_in payment_words q) eqn:E6.
  { split; [|split; [|split]]; intros H; try discriminate.
    - apply Hpay in H. discriminate.
    - apply existsb_str_in in E6 as (w & Hw & Hsub).
      destruct Hw as [<- | Hw].
      + exfalso. apply Hpay in Hsub. discriminate.
      + exists w. split; [exact Hw | exact Hsub]. }
  repeat split; intros; discriminate.
Qed.

Lemma sweep_in (patterns : list string) (text : string) (ic : bool)
    (ms : list Match) :
  sweep patterns text ic = Ok ms ->
  forall m, In m ms <->
            exists p msp, In p patterns /\ finditer p text ic = Ok msp /\ In m msp.
Proof.
  unfold sweep. destruct (mapM _ patterns) as [pp|e] eqn:E; [|discriminate].
  simpl. intros H. injection H as <-. now apply mapM_in.
Qed.

Lemma dict_get_in {A} (key : string) (d : list (string * A)) (v : A) :
  dict_get key d = Some v -> In (key, v) d.
Proof.
  induction d as [|[k a] d IH]; simpl; [discriminate|].
  destruct (String.eqb k key) eqn:E.
  - apply String.eqb_eq in E. intros H. injection H as <-. subst. now left.
  - intros H. right. auto.
Qed.

(** The sources of a money answer are the matched texts. *)
Lemma money_sources (self : LegalQAEngine) (q pref : string) (r : QAResult)
    (patterns : list string) :
  patterns = match dict_get pref currency_patterns with
             | Some ps => ps
             | None => flat_map snd currency_patterns
             end ->
  _answer_money_question self q pref = Ok r ->
  exists ms, sweep patterns (document_text self) true = Ok ms /\
             forall s, In s (sources r) <-> In s (map group0 ms).
Proof.
  intros -> H. unfold _answer_money_question in H.
  destruct (sweep _ (document_text self) true) as [ms|e]; [|discriminate].
  exists ms. split; [reflexivity|]. cbn [bind] in H.
  destruct (map group0 ms) as [|x xs]; injection H as <-; intros s; cbn [sources].
  - tauto.
  - apply (in_unique s (x :: xs)).
Qed.

(** X6. A preference that is a key of the currency table narrows the
    answer: the amounts reported under it are among those reported under
    any preference that is not a key. *)
Theorem currency_code_narrows (self : LegalQAEngine) (question code other : string)
    (ps : list string) (r_code r_all : QAResult) :
  dict_get code currency_patterns = Some ps ->
  dict_get other currency_patterns = None ->
  _answer_money_question self question code = Ok r_code ->
  _answer_money_question self question other = Ok r_all ->
  incl (sources r_code) (sources r_all).
Proof.
  intros Hcode Hother H1 H2 s Hs.
  destruct (money_sources self question code r_code ps) as (ms1 & Hsw1 & Hin1);
    [now rewrite Hcode | exact H1 |].
  destruct (money_sources self question other r_all (flat_map snd currency_patterns))
    as (ms2 & Hsw2 & Hin2); [now rewrite Hother | exact H2 |].
  apply Hin2. apply Hin1 in Hs. apply in_map_iff in Hs as (m & <- & Hm).
  apply in_map. apply (sweep_in _ _ _ _ Hsw2).
  apply (sweep_in _ _ _ _ Hsw1) in Hm as (p & msp & Hp & Hf & Hm).
  exists p, msp. split; [|split; assumption].
  apply in_flat_map. exists (code, ps). split; [|exact Hp].
  now apply dict_get_in.
Qed.

(** The rupee amount found under "INR" is among the two amounts found
    under "India". *)
Lemma currency_code_narrows_witness :
  let engine := set_document init "Fee: Rs. 5,000 or $70." None in
  incl ["Rs. 5,000"] ["$70"; "Rs. 5,000"].
Proof.
  intros engine.
  apply (currency_code_narrows engine "What is the amount?" "INR" "India"
           ["₹[\d,]+(?:\.\d{2})?"; "Rs\.?\s*[\d,]+"; "INR\s*[\d,]+"; "rupees?";
            "[\d,]+\s*(?:crores?|lakhs?)"]
           (mkQAResult "What is the amount?" "Found monetary amounts: Rs. 5,000"
              (9 # 10) "Fee: Rs. 5,000 or $70." ["Rs. 5,000"])
           (mkQAResult "What is the amount?" "Found monetary amounts: $70, Rs. 5,000"
              (9 # 10) "Fee: Rs. 5,000 or $70." ["$70"; "Rs. 5,000"]));
    vm_compute; reflexivity.
Defined.

Lemma length_append (a b : string) :
  String.length (a ++ b) = (String.length a + String.length b)%nat.
Proof. induction a as [|c a IH]; simpl; [reflexivity | now rewrite IH]. Qed.

Lemma length_substring_le (n m : nat) (s : string) :
  (String.length (substring n m s) <= m)%nat.
Proof.
  revert n m. induction s as [|c s IH]; intros n m.
  - destruct n, m; simpl; lia.
  - destruct n as [|n]; [destruct m as [|m]|]; simpl.
    + lia.
    + specialize (IH 0%nat m). lia.
    + apply IH.
Qed.

(** X7. The answer of the general extractor has at most 303
    characters.  When a sentence was found it is the only source and the
    context, and the answer is that sentence, cut to its first 300
    characters followed by "..." when it is longer. *)
Theorem general_answer_bounded (self : LegalQAEngine) (question : string) :
  exists r : QAResult,
    _answer_general_question self question = Ok r /\
    (String.length (answer r) <= 303)%nat /\
    (sources r <> [] ->
     sources r = [context r] /\
     (if (300 <? String.length (context r))%nat
      then answer r = slice (context r) 0 300 ++ "..."
      else answer r = context r)).
Proof.
  unfold _answer_general_question, findall, split.
  destruct (finditer_ok "\b\w+\b" (lower question) false) as [ws ->];
    [vm_compute; reflexivity|].
  destruct (finditer_ok "[.!?]+" (document_text self) false) as [ss ->];
    [vm_compute; reflexivity|].
  cbn [bind]. destruct (relevant _ _) as [|first others].
  - eexists. split; [reflexivity|]. split.
    + apply Nat.leb_le. vm_compute. reflexivity.
    + simpl. intros H. now contradiction H.
  - eexists. split; [reflexivity|]. cbn [answer sources context].
    set (best := longest first others).
    destruct (300 <? String.length best)%nat eqn:E.
    + split; [|intros _; split; reflexivity].
      rewrite length_append. unfold slice.
      pose proof (length_substring_le 0 (300 - 0) best) as Hle.
      change (String.length "...") with 3%nat. lia.
    + split; [|intros _; split; reflexivity].
      apply Nat.ltb_ge in E. lia.
Qed.

(** A question about the price of a document with one amount. *)
Lemma low_confidence_iff_not_found_witness :
  exists r : QAResult,
    answer_question (set_document init "The fee is $500." None)
      "What is the price?" "India" = Ok r /\
    (confidence r < 1 # 2 <-> sources r = []).
Proof.
  destruct (low_confidence_iff_not_found
              (set_document init "The fee is $500." None)
              "What is the price?" "India") as (r & H & _ & _ & Hiff).
  exists r. split; assumption.
Defined.

(** Two of the questions the engine itself suggests are shadowed. *)
Lemma shadowed_keywords_witness :
  route (lower "Are there any termination clauses?") <> Termination /\
  route (lower "What are the payment terms?") <> Payment /\
  Mentions ["end"; "cancel"] (lower "Can I cancel?") /\
  Mentions ["pay"; "invoice"; "billing"] (lower "Is an invoice sent?").
Proof.
  split; [|split; [|split]].
  - apply (proj1 (shadowed_keywords "Are there any termination clauses?")).
    apply existsb_str_in. reflexivity.
  - apply (proj1 (proj2 (shadowed_keywords "What are the payment terms?"))).
    apply str_in_spec. reflexivity.
  - apply (proj1 (proj2 (proj2 (shadowed_keywords "Can I cancel?")))).
    reflexivity.
  - apply (proj2 (proj2 (proj2 (shadowed_keywords "Is an invoice sent?")))).
    reflexivity.
Defined.

(** A question with two words of the only sentence of the document. *)
Lemma general_answer_bounded_witness :
  exists r : QAResult,
    _answer_general_question
      (set_document init "The supplier shall deliver the goods within ten days." None)
      "Shall the supplier deliver goods?" = Ok r /\
    (String.length (answer r) <= 303)%nat /\
    sources r = [context r].
Proof.
  destruct (general_answer_bounded
              (set_document init "The supplier shall deliver the goods within ten days." None)
              "Shall the supplier deliver goods?") as (r & H & Hlen & Hfound).
  exists r. split; [exact H|]. split; [exact Hlen|].
  apply Hfound. vm_compute in H. injection H as <-. discriminate.
Defined.

(** X8. None of the six choices of the country selector of app.py is a
    key of the currency table, so the choice never changes an answer. *)
Theorem country_selector_has_no_effect (self : LegalQAEngine)
    (question preference1 preference2 : string) :
  In preference1 country_options -> In preference2 country_options ->
  answer_question self question preference1 =
  answer_question self question preference2.
Proof.
  intros H1 H2. unfold answer_question.
  destruct (route (lower question)); try reflexivity.
  unfold dispatch, _answer_money_question.
  assert (Hnone : forall p, In p country_options ->
                            dict_get p currency_patterns = None).
  { intros p Hp. simpl in Hp.
    repeat (destruct Hp as [<- | Hp]; [reflexivity|]). contradiction. }
  now rewrite (Hnone _ H1), (Hnone _ H2).
Qed.

(** "India" and "USA" on a document with a rupee and a dollar amount. *)
Lemma country_selector_has_no_effect_witness :
  answer_question (set_document init "Fee: Rs. 5,000 or $70." None)
    "What is the amount?" "India" =
  answer_question (set_document init "Fee: Rs. 5,000 or $70." None)
    "What is the amount?" "USA".
Proof.
  apply country_selector_has_no_effect; simpl; tauto.
Defined.

(** X9. The module-level [answer_question] never raises and returns
    the answer text the engine gives for the same text, question and
    preference; the entities passed play no part. *)
Theorem one_shot_answer (text question : string)
    (entities : option (list (string * list string)))
    (country_preference : string) :
  exists r : QAResult,
    answer_question (set_document init text None) question country_preference
    = Ok r /\
    QAModule.answer_question text question entities country_preference
    = Ok (answer r).
Proof.
  destruct (answer_question_shape (set_document init text None)
              question country_preference) as (r & Hr & _).
  exists r. split; [exact Hr|].
  unfold QAModule.answer_question.
  assert (He : answer_question (set_document init text entities) question
                 country_preference = Ok r).
  { rewrite <- Hr. unfold answer_question.
    destruct (route (lower question)); reflexivity. }
  rewrite He. reflexivity.
Qed.

End QAExtra.

(* ================================================================== *)
(** * The detector on every text *)
(* ================================================================== *)

Module RiskTotal.

Import PyStr PyNum Exn Re ReAnalysis RiskShape ReFacts Spec StrFacts NumFacts
       RiskClauses RiskScore Risk.
Open Scope Q_scope.
Local Open Scope list_scope.

(** Every pattern of the knowledge base compiles, belongs to one of five
    categories, and gets the default explanation of its category or the
    penalty explanation. *)
Lemma risk_table_facts (category : RiskCategory) (data : PatternData)
    (pattern : string) :
  In (category, data) risk_patterns -> In pattern (patterns data) ->
  compiles pattern = true /\
  In category [LIABILITY; FINANCIAL; TERMINATION; INTELLECTUAL_PROPERTY; COMPLIANCE] /\
  (_get_risk_explanation pattern category data = default_explanations_get category \/
   _get_risk_explanation pattern category data =
   "Penalty clauses may impose harsh financial consequences for minor breaches."%string).
Proof.
  intros Hentry Hpattern. simpl in Hentry.
  repeat (destruct Hentry as [Hentry | Hentry];
          [injection Hentry as <- <-; simpl in Hpattern;
           repeat (destruct Hpattern as [<- | Hpattern];
                   [split; [vm_compute; reflexivity|];
                    split; [simpl; tauto|];
                    vm_compute; tauto|]);
           contradiction|]).
  contradiction.
Qed.

Lemma factors_of_pattern_ok (text : string) (sentences : list string)
    (category : RiskCategory) (data : PatternData) (pattern : string) :
  In (category, data) risk_patterns -> In pattern (patterns data) ->
  exists fs,
    factors_of_pattern text sentences category data pattern = Ok fs /\
    Forall (detector_factor sentences) fs.
Proof.
  intros Hentry Hpattern.
  destruct (risk_table_facts _ _ _ Hentry Hpattern) as (Hc & Hcat & Hexp).
  unfold factors_of_pattern.
  destruct (finditer_ok pattern text true Hc) as [ms ->]. cbn [bind].
  eexists. split; [reflexivity|].
  apply Forall_forall. intros f Hf. apply in_flat_map in Hf as (m & _ & Hf).
  destruct (enclosing_sentence text m sentences) as [sentence|] eqn:Es;
    [|contradiction].
  destruct (String.eqb sentence "") eqn:Ee; [contradiction|].
  destruct Hf as [<- | []].
  unfold enclosing_sentence in Es. apply find_some in Es as [Hin _].
  apply String.eqb_neq in Ee.
  repeat split; assumption.
Qed.

Lemma analyze_ok (sents : string -> list string) (text : string) :
  exists fs,
    analyze_semantic_risks sents text = Ok fs /\
    Forall (detector_factor (sents text)) fs.
Proof.
  unfold analyze_semantic_risks.
  destruct (sents text) as [|s0 ss] eqn:Es.
  - exists []. split; [reflexivity | constructor].
  - rewrite <- Es.
    match goal with
    | |- context [mapM ?f risk_patterns] =>
        destruct (mapM_forall (detector_factor (sents text)) f risk_patterns)
          as (yss & -> & Hall)
    end.
    + intros [category data] Hentry.
      destruct (mapM_forall (detector_factor (sents text))
                  (factors_of_pattern text (sents text) category data)
                  (patterns data)) as (pp & -> & Hpp).
      * intros pattern Hpattern. now apply factors_of_pattern_ok.
      * cbn [bind]. eexists. split; [reflexivity | exact Hpp].
    + cbn [bind]. eexists. split; [reflexivity | exact Hall].
Qed.

End RiskTotal.

(* ================================================================== *)
(** * Further properties of the risk engine *)
(* ================================================================== *)

Module RiskExtra.

Import PyStr PyNum Exn Re ReAnalysis RiskShape ReFacts Spec StrFacts NumFacts
       RiskClauses RiskScore RiskTotal Risk.
Open Scope Q_scope.

Lemma weighted_cons (f : RiskFactor) (fs : list RiskFactor) :
  weighted (f :: fs) == risk_weights (level f) * confidence f + weighted fs.
Proof.
  unfold weighted at 1. simpl fold_left. rewrite fold_add_factor.
  unfold add_factor. lra.
Qed.

Lemma weights_at_least_one (l : RiskLevel) : 1 <= risk_weights l.
Proof. destruct l; simpl; lra. Qed.

Lemma weighted_lower (fs : list RiskFactor) :
  Forall (fun f => confidence f = 85 # 100) fs ->
  (85 # 100) * len fs <= weighted fs.
Proof.
  induction 1 as [|f fs Hf _ IH].
  - vm_compute. discriminate.
  - rewrite weighted_cons, len_cons, Hf.
    pose proof (weights_at_least_one (level f)). lra.
Qed.

Lemma score_range (fs : list RiskFactor) (ms : list string) :
  Forall (fun f => confidence f = 85 # 100) fs ->
  17 # 10 <= score fs ms /\ score fs ms <= 10.
Proof.
  intros Hall. destruct (empty_cases fs ms) as [[-> ->] | Hnb].
  - change (score [] []) with 2. split; lra.
  - rewrite (score_ratio fs ms Hnb). split; [|apply py_min_le_l].
    pose proof (max_possible_pos fs ms Hnb) as Hpos.
    assert (Hr : 17 # 100 <= raw_score fs ms / max_possible_score fs ms).
    { apply Qle_shift_div_l; [exact Hpos|].
      rewrite raw_score_weighted. unfold max_possible_score.
      pose proof (weighted_lower fs Hall). pose proof (len_nonneg ms).
      pose proof (len_nonneg fs). lra. }
    destruct (py_min_spec 10 (raw_score fs ms / max_possible_score fs ms * 10))
      as [[_ ->] | [_ ->]]; lra.
Qed.

Lemma total_constant (c : Q) (l : list Q) :
  Forall (fun x => x = c) l -> total l == c * len l.
Proof.
  induction 1 as [|x l Hx _ IH]; simpl.
  - rewrite (@len_nil Q). lra.
  - rewrite IH, len_cons, Hx. lra.
Qed.

Lemma confidence_of_detector (fs : list RiskFactor) :
  Forall (fun f => confidence f = 85 # 100) fs ->
  _calculate_confidence fs = 8 # 10 \/ _calculate_confidence fs == 85 # 100.
Proof.
  intros Hall. destruct fs as [|f fs]; [now left | right].
  unfold _calculate_confidence.
  assert (Hm : sum (map confidence (f :: fs)) / len (f :: fs) == 85 # 100).
  { rewrite sum_total, (total_constant (85 # 100)).
    - rewrite len_map. field. pose proof (len_pos f fs). lra.
    - apply Forall_forall. intros x Hx. apply in_map_iff in Hx as (g & <- & Hg).
      rewrite Forall_forall in Hall. auto. }
  destruct (py_min_spec (95 # 100) (sum (map confidence (f :: fs)) / len (f :: fs)))
    as [[_ ->] | [Hle ->]]; [exact Hm | lra].
Qed.

Lemma detector_confidence (sentences : list string) (fs : list RiskFactor) :
  Forall (detector_factor sentences) fs ->
  Forall (fun f => confidence f = 85 # 100) fs.
Proof. apply Forall_impl. intros f H. apply H. Qed.

(** X10. [analyze_semantic_risks] never raises, and every factor it
    returns has confidence 0.85, a non-empty sentence of the segmentation
    as context, one of the five categories of the knowledge base, the
    mitigation strategies of its category as recommendations, no legal
    precedent, and as explanation the default of its category or the
    penalty explanation (the other keys of the explanation tables
    contain a space and occur in no pattern). *)
Theorem detector_factors (sents : string -> list string) (text : string) :
  exists fs : list RiskFactor,
    analyze_semantic_risks sents text = Ok fs /\
    Forall (detector_factor (sents text)) fs.
Proof.
  destruct (analyze_ok sents text) as (fs & Hfs & Hall).
  exists fs. split; assumption.
Qed.

(** X11. [assess_risk] never raises, and its assessment has a score
    between 1 and 10, the level of that score, a confidence from 0.8 to
    below the cap 0.95, and the missing clauses of the text. *)
Theorem assessment_bounds (sents : string -> list string)
    (format_1f : Q -> string) (text : string) :
  exists a : RiskAssessment,
    assess_risk sents format_1f text = Ok a /\
    1 <= overall_score a /\ overall_score a <= 10 /\
    risk_level a = level_of_score (overall_score a) /\
    8 # 10 <= assessment_confidence a /\ assessment_confidence a < 95 # 100 /\
    missing_clauses a = detect_missing_clauses text.
Proof.
  unfold assess_risk.
  destruct (analyze_ok sents text) as (fs & -> & Hall). cbn [bind].
  apply detector_confidence in Hall.
  destruct (score_range fs (detect_missing_clauses text) Hall) as [Hlo Hhi].
  unfold score in Hlo, Hhi.
  assert (Hl : snd (calculate_overall_risk_score fs (detect_missing_clauses text)) =
               level_of_score
                 (fst (calculate_overall_risk_score fs (detect_missing_clauses text)))).
  { unfold calculate_overall_risk_score.
    destruct fs, (detect_missing_clauses text); reflexivity. }
  destruct (calculate_overall_risk_score fs (detect_missing_clauses text)) as [s l].
  pose proof (confidence_of_detector fs Hall) as Hc.
  eexists. split; [reflexivity|]. cbn in *.
  repeat split; try assumption; try lra.
  - destruct Hc as [-> | Hc]; lra.
  - destruct Hc as [-> | Hc]; lra.
Qed.

(** X12. The empty document is rated critical: whatever the
    segmentation, [assess_risk] finds no factor, reports all six standard
    clauses missing and returns the score 10.0, the level critical, the
    one recommendation to add the six clauses and the confidence 0.8. *)
Theorem empty_document_is_critical (sents : string -> list string)
    (format_1f : Q -> string) :
  exists a : RiskAssessment,
    assess_risk sents format_1f "" = Ok a /\
    overall_score a = 10 /\ risk_level a = CRITICAL /\
    risk_factors a = [] /\
    missing_clauses a = standard_clause_names /\
    assessment_recommendations a =
    ["Consider adding the following clauses: Limitation Of Liability, Force Majeure, Confidentiality, Dispute Resolution, Termination Notice, Intellectual Property"%string] /\
    assessment_confidence a = 8 # 10.
Proof.
  unfold assess_risk.
  assert (Hf : analyze_semantic_risks sents "" = Ok []).
  { unfold analyze_semantic_risks. destruct (sents ""); [reflexivity|].
    vm_compute. reflexivity. }
  rewrite Hf. cbn [bind].
  eexists. split; [reflexivity|]. repeat split.
Qed.

(** ** Missing clauses *)

Lemma lower_app (a b : string) : lower (a ++ b) = lower a ++ lower b.
Proof.
  unfold lower. induction a as [|c a IH]; simpl; [reflexivity | now rewrite IH].
Qed.

Lemma append_assoc (a b c : string) : (a ++ b) ++ c = a ++ (b ++ c).
Proof. induction a as [|ch a IH]; simpl; [reflexivity | now rewrite IH]. Qed.

Lemma substring_app_l (k a b : string) : Substring k a -> Substring k (a ++ b).
Proof.
  intros (pre & post & ->). exists pre, (post ++ b).
  now rewrite !append_assoc.
Qed.

Lemma substring_app_r (k a b : string) : Substring k b -> Substring k (a ++ b).
Proof.
  intros (pre & post & ->). exists (a ++ pre), post.
  now rewrite !append_assoc.
Qed.

Lemma missing_from_sub (text_lower : string) (clauses : list (string * list string)) :
  incl (missing_from text_lower clauses)
       (map (fun entry => clause_name (fst entry)) clauses) /\
  (NoDup (map (fun entry => clause_name (fst entry)) clauses) ->
   NoDup (missing_from text_lower clauses)) /\
  (length (missing_from text_lower clauses) <= length clauses)%nat.
Proof.
  induction clauses as [|[ct kws] clauses (Hincl & Hnd & Hlen)].
  - repeat split; [intros x [] | intros _; constructor | simpl; lia].
  - unfold missing_from in *. simpl flat_map. simpl map.
    destruct (negb (existsb (fun keyword => str_in keyword text_lower) kws)).
    + simpl app. split; [|split].
      * intros x [<- | Hx]; [now left | right; auto].
      * intros H. inversion H as [|? ? Hnotin Hrest]. subst. constructor; auto.
      * simpl. lia.
    + simpl app. split; [|split].
      * intros x Hx. right. auto.
      * intros H. inversion H. auto.
      * simpl. lia.
Qed.

(** X13. The missing clauses are among the six standard names, without
    repetition, so there are at most six. *)
Theorem missing_clauses_well_formed (text : string) :
  incl (detect_missing_clauses text) standard_clause_names /\
  NoDup (detect_missing_clauses text) /\
  (length (detect_missing_clauses text) <= 6)%nat.
Proof.
  unfold detect_missing_clauses.
  destruct (missing_from_sub (lower text) standard_clauses) as (Hincl & Hnd & Hlen).
  split; [exact Hincl|]. split; [|exact Hlen].
  apply Hnd. vm_compute.
  repeat (constructor; [simpl; intuition discriminate|]). constructor.
Qed.

(** X14. More text never adds a missing clause: a clause missing from a
    concatenation is missing from each of its two parts. *)
Theorem more_text_never_adds_missing (text1 text2 : string) :
  incl (detect_missing_clauses (text1 ++ text2)) (detect_missing_clauses text1) /\
  incl (detect_missing_clauses (text1 ++ text2)) (detect_missing_clauses text2).
Proof.
  unfold detect_missing_clauses. rewrite lower_app.
  split; intros name H;
    apply in_missing_from in H as (ct & kws & Hentry & Hname & Hno);
    apply in_missing_from; exists ct, kws; (split; [exact Hentry|]);
    (split; [exact Hname|]); intros (kw & Hkw & Hsub); apply Hno; exists kw;
    (split; [exact Hkw|]).
  - now apply substring_app_l.
  - now apply substring_app_r.
Qed.

(** ** Recommendations *)

Lemma dedup_spec (l seen : list string) :
  NoDup (dedup seen l) /\
  forall x, In x (dedup seen l) -> In x l /\ ~ In x seen.
Proof.
  revert seen. induction l as [|a l IH]; intros seen; simpl.
  - split; [constructor | intros x []].
  - destruct (existsb (String.eqb a) seen) eqn:E.
    + destruct (IH seen) as [Hnd Hin]. split; [exact Hnd|].
      intros x Hx. destruct (Hin x Hx). auto.
    + destruct (IH (a :: seen)) as [Hnd Hin]. split.
      * constructor; [|exact Hnd]. intros Ha. destruct (Hin a Ha) as [_ K].
        apply K. now left.
      * intros x [<- | Hx].
        -- split; [now left|]. intros Hs.
           assert (existsb (String.eqb a) seen = true); [|congruence].
           apply existsb_exists. exists a. split; [exact Hs | apply String.eqb_refl].
        -- destruct (Hin x Hx) as [H1 H2]. split; [now right|].
           intros Hs. apply H2. now right.
Qed.

Lemma firstn_in {A} (n : nat) (l : list A) (x : A) : In x (firstn n l) -> In x l.
Proof.
  revert l. induction n as [|n IH]; intros [|a l]; simpl; try contradiction.
  intros [<- | H]; [now left | right; auto].
Qed.

Lemma firstn_NoDup {A} (n : nat) (l : list A) : NoDup l -> NoDup (firstn n l).
Proof.
  revert l. induction n as [|n IH]; intros [|a l] H; simpl; try constructor.
  - inversion H. subst. intros K. apply firstn_in in K. contradiction.
  - inversion H. auto.
Qed.

(** X15. The recommendations have no duplicate and at most ten entries,
    and each is one of the first two recommendations of a factor or the
    line that lists the missing clauses. *)
Theorem recommendations_well_formed (fs : list RiskFactor) (ms : list string) :
  NoDup (_generate_recommendations fs ms) /\
  (length (_generate_recommendations fs ms) <= 10)%nat /\
  forall rec, In rec (_generate_recommendations fs ms) ->
    (exists f, In f fs /\ In rec (firstn 2 (recommendations f))) \/
    (ms <> [] /\ rec = "Consider adding the following clauses: " ++ join ", " ms).
Proof.
  unfold _generate_recommendations.
  set (recs := flat_map (fun factor => firstn 2 (recommendations factor)) fs).
  set (all := match ms with
              | [] => recs
              | _ :: _ => app recs ["Consider adding the following clauses: " ++ join ", " ms]
              end).
  destruct (dedup_spec all []) as [Hnd Hin].
  split; [now apply firstn_NoDup|]. split; [apply firstn_le_length|].
  intros rec Hrec. apply firstn_in, Hin in Hrec as [Hrec _].
  assert (Hrecs : In rec recs -> exists f, In f fs /\ In rec (firstn 2 (recommendations f))).
  { intros H. apply in_flat_map in H. exact H. }
  unfold all in Hrec. destruct ms as [|m ms'].
  - left. auto.
  - apply in_app_iff in Hrec as [H | [<- | []]].
    + left. auto.
    + right. split; [discriminate | reflexivity].
Qed.

(** ** Levels and scores *)

(** X16. A higher score never has a lower level. *)
Theorem level_monotone (s s' : Q) :
  s <= s' ->
  (level_rank (level_of_score s) <= level_rank (level_of_score s'))%nat.
Proof.
  intros H. unfold level_of_score.
  destruct (ge s 8) eqn:A8, (ge s 6) eqn:A6, (ge s 4) eqn:A4,
           (ge s' 8) eqn:B8, (ge s' 6) eqn:B6, (ge s' 4) eqn:B4;
    simpl; try lia; exfalso;
    repeat match goal with
           | K : ge _ _ = true |- _ => apply ge_true in K
           | K : ge _ _ = false |- _ => apply ge_false in K
           end; lra.
Qed.

Lemma existsb_weaken {A} (f g : A -> bool) (l : list A) :
  (forall x, f x = true -> g x = true) ->
  existsb f l = true -> existsb g l = true.
Proof.
  intros H K. apply existsb_exists in K as (x & Hx & Hf).
  apply existsb_exists. exists x. auto.
Qed.

(** X17. The sentence can only raise the severity: the level of a
    pattern with any sentence is at least its level with the empty
    sentence. *)
Theorem context_only_raises_severity (pattern context : string) :
  (level_rank (_calculate_risk_level pattern "")
   <= level_rank (_calculate_risk_level pattern context))%nat.
Proof.
  unfold _calculate_risk_level.
  set (pl := lower pattern). set (cl := lower context).
  change (lower "") with "".
  assert (Hw : forall x, str_in x pl || str_in x "" = true ->
                         str_in x pl || str_in x cl = true).
  { intros x H. apply orb_true_iff in H as [H | H].
    - now rewrite H.
    - apply str_in_empty in H. subst x. now destruct pl. }
  pose proof (existsb_weaken _ _ critical_risk_indicators Hw) as Hc.
  pose proof (existsb_weaken _ _ high_risk_indicators Hw) as Hh.
  set (c0 := existsb (fun indicator => str_in indicator pl || str_in indicator "")
               critical_risk_indicators) in *.
  set (c1 := existsb (fun indicator => str_in indicator pl || str_in indicator cl)
               critical_risk_indicators) in *.
  set (h0 := existsb (fun indicator => str_in indicator pl || str_in indicator "")
               high_risk_indicators) in *.
  set (h1 := existsb (fun indicator => str_in indicator pl || str_in indicator cl)
               high_risk_indicators) in *.
  set (m := existsb (fun word => str_in word pl) generic_severity_words).
  destruct c0, c1, h0, h1, m; simpl; try lia;
    try (specialize (Hc eq_refl); discriminate);
    try (specialize (Hh eq_refl); discriminate).
Qed.

Lemma append_nil_r (s : string) : s ++ "" = s.
Proof. induction s as [|c s IH]; simpl; [reflexivity | now rewrite IH]. Qed.

Lemma severity_word_of_score (s : Q) :
  (if ge s 8 then "critical"
   else if ge s 6 then "high"
   else if ge s 4 then "moderate" else "low")
  = severity_word (level_of_score s).
Proof.
  unfold level_of_score.
  destruct (ge s 8); [reflexivity|].
  destruct (ge s 6); [reflexivity|].
  destruct (ge s 4); reflexivity.
Qed.

(** X18. The summary names the level of the assessment: it starts with
    the word of the level ("moderate" for medium), then the formatted
    score. *)
Theorem summary_agrees_with_level (sents : string -> list string)
    (format_1f : Q -> string) (text : string) :
  exists (a : RiskAssessment) (rest : string),
    assess_risk sents format_1f text = Ok a /\
    summary a =
    "This document presents " ++ severity_word (risk_level a)
    ++ " risk with a score of " ++ format_1f (overall_score a) ++ "/10. " ++ rest.
Proof.
  unfold assess_risk.
  destruct (analyze_ok sents text) as (fs & -> & _). cbn [bind].
  assert (Hl : snd (calculate_overall_risk_score fs (detect_missing_clauses text)) =
               level_of_score
                 (fst (calculate_overall_risk_score fs (detect_missing_clauses text)))).
  { unfold calculate_overall_risk_score.
    destruct fs, (detect_missing_clauses text); reflexivity. }
  destruct (calculate_overall_risk_score fs (detect_missing_clauses text)) as [s l].
  simpl in Hl. subst l.
  destruct fs as [|f fs]; destruct (detect_missing_clauses text) as [|m ms];
    eexists; eexists; (split; [reflexivity|]);
    cbn [summary risk_level overall_score]; unfold _generate_summary;
    rewrite severity_word_of_score, ?append_assoc; reflexivity.
Qed.

(** The first recommendation for a liability factor. *)
Lemma recommendations_well_formed_witness :
  let f := critical_factor in
  (exists g, In g [f] /\
             In "Add liability caps to limit maximum exposure"
                (firstn 2 (recommendations g))) \/
  (["Force Majeure"] <> [] /\
   "Add liability caps to limit maximum exposure" =
   "Consider adding the following clauses: " ++ join ", " ["Force Majeure"]).
Proof.
  intros f.
  apply (proj2 (proj2 (recommendations_well_formed [f] ["Force Majeure"]))).
  vm_compute. tauto.
Defined.

(** The lowest score of the detector and a score above 8. *)
Lemma level_monotone_witness :
  (level_rank (level_of_score (17 # 10)) <= level_rank (level_of_score (85 # 10)))%nat.
Proof. apply level_monotone. vm_compute. discriminate. Defined.

End RiskExtra.

(* ================================================================== *)
(** * The conversation memory *)
(* ================================================================== *)

Module ChatMemoryFacts.

Import Exn ChatMemory.

Lemma get_set_same (d : string) (v : list Interaction) (m : ChatMemory) :
  get d (set d v m) = Some v.
Proof.
  induction m as [|[k old] m IH]; simpl.
  - now rewrite String.eqb_refl.
  - destruct (String.eqb k d) eqn:E; simpl; now rewrite E.
Qed.

Lemma get_set_other (d d' : string) (v : list Interaction) (m : ChatMemory) :
  d' <> d -> get d' (set d v m) = get d' m.
Proof.
  intros Hne. induction m as [|[k old] m IH]; simpl.
  - destruct (String.eqb d d') eqn:E; [|reflexivity].
    apply String.eqb_eq in E. congruence.
  - destruct (String.eqb k d) eqn:E; simpl.
    + apply String.eqb_eq in E. subst k.
      destruct (String.eqb d d') eqn:E'; [|reflexivity].
      apply String.eqb_eq in E'. congruence.
    + now rewrite IH.
Qed.

Lemma contains_get (d : string) (m : ChatMemory) :
  contains d m = true <-> get d m <> None.
Proof.
  induction m as [|[k v] m IH]; simpl.
  - split; [discriminate | intros H; now contradiction H].
  - destruct (String.eqb k d); simpl; [split; [discriminate | reflexivity] | exact IH].
Qed.

Lemma contains_in (d : string) (m : ChatMemory) :
  contains d m = true <-> In d (map fst m).
Proof.
  induction m as [|[k v] m IH]; simpl.
  - split; [discriminate | contradiction].
  - rewrite orb_true_iff, String.eqb_eq, IH. reflexivity.
Qed.

Lemma keys_set (d : string) (v : list Interaction) (m : ChatMemory) :
  map fst (set d v m) =
  if contains d m then map fst m else app (map fst m) [d].
Proof.
  induction m as [|[k old] m IH]; simpl; [reflexivity|].
  destruct (String.eqb k d); simpl; [reflexivity|].
  rewrite IH. now destruct (contains d m).
Qed.

Lemma well_formed_set (d : string) (v : list Interaction) (m : ChatMemory) :
  well_formed m -> well_formed (set d v m).
Proof.
  unfold well_formed. intros H. rewrite keys_set.
  destruct (contains d m) eqn:E; [exact H|].
  apply NoDup_app; [exact H | repeat constructor; intros [] |].
  intros x Hx [<- | []]. apply contains_in in Hx. congruence.
Qed.

Lemma get_del_same (d : string) (m : ChatMemory) :
  well_formed m -> get d (del d m) = None.
Proof.
  unfold well_formed. induction m as [|[k v] m IH]; simpl; intros H; [reflexivity|].
  inversion H as [|? ? Hk Hm]. subst.
  destruct (String.eqb k d) eqn:E.
  - apply String.eqb_eq in E. subst k.
    destruct (get d m) eqn:G; [|reflexivity].
    exfalso. apply Hk. apply contains_in. apply contains_get. congruence.
  - simpl. rewrite E. auto.
Qed.

Lemma get_del_other (d d' : string) (m : ChatMemory) :
  d' <> d -> get d' (del d m) = get d' m.
Proof.
  intros Hne. induction m as [|[k v] m IH]; simpl; [reflexivity|].
  destruct (String.eqb k d) eqn:E.
  - apply String.eqb_eq in E. subst k.
    destruct (String.eqb d d') eqn:E'; [|reflexivity].
    apply String.eqb_eq in E'. congruence.
  - simpl. now rewrite IH.
Qed.

Lemma keys_del_sub (d : string) (m : ChatMemory) :
  forall x, In x (map fst (del d m)) -> In x (map fst m).
Proof.
  induction m as [|[k v] m IH]; simpl; [tauto|].
  destruct (String.eqb k d); simpl; intros x; [tauto|].
  intros [<- | H]; [now left | right; auto].
Qed.

Lemma well_formed_del (d : string) (m : ChatMemory) :
  well_formed m -> well_formed (del d m).
Proof.
  unfold well_formed. induction m as [|[k v] m IH]; simpl; intros H; [constructor|].
  inversion H as [|? ? Hk Hm]. subst.
  destruct (String.eqb k d); simpl; [exact Hm|].
  constructor; [|auto]. intros K. apply Hk. eapply keys_del_sub. exact K.
Qed.

(** X19. [add_interaction] never raises; afterwards the history of the
    document is its former history followed by the new interaction, the
    history of every other document is unchanged, and the keys stay
    distinct. *)
Theorem add_then_get (self : ChatMemory) (doc_id question answer : string) :
  exists memory : ChatMemory,
    add_interaction self doc_id question answer = Ok memory /\
    get_history memory doc_id =
    app (get_history self doc_id) [mkInteraction question answer] /\
    (forall other, other <> doc_id ->
                   get_history memory other = get_history self other) /\
    (well_formed self -> well_formed memory).
Proof.
  unfold add_interaction, get_history.
  destruct (contains doc_id self) eqn:E; simpl negb; cbv iota.
  - destruct (get doc_id self) as [history|] eqn:G.
    + eexists. split; [reflexivity|]. rewrite get_set_same.
      split; [reflexivity|]. split.
      * intros other Hne. now rewrite get_set_other.
      * apply well_formed_set.
    + apply contains_get in E. contradiction.
  - rewrite get_set_same.
    assert (G : get doc_id self = None).
    { destruct (get doc_id self) eqn:G; [|reflexivity].
      assert (contains doc_id self = true) by (apply contains_get; congruence).
      congruence. }
    eexists. split; [reflexivity|]. rewrite get_set_same, G.
    split; [reflexivity|]. split.
    + intros other Hne. now rewrite !get_set_other.
    + intros H. now apply well_formed_set, well_formed_set.
Qed.

(** A second question on a document and the history of another. *)
Lemma add_then_get_witness :
  exists memory : ChatMemory,
    add_interaction [("doc-1", [mkInteraction "Who?" "Acme"])] "doc-1" "When?" "2021"
    = Ok memory /\
    get_history memory "doc-1" =
    [mkInteraction "Who?" "Acme"; mkInteraction "When?" "2021"] /\
    get_history memory "doc-2" = [] /\
    well_formed memory.
Proof.
  destruct (add_then_get [("doc-1", [mkInteraction "Who?" "Acme"])]
              "doc-1" "When?" "2021") as (memory & H & Hget & Hother & Hwf).
  exists memory. split; [exact H|]. split; [exact Hget|]. split.
  - rewrite Hother; [reflexivity | discriminate].
  - apply Hwf. repeat constructor. intros [].
Defined.

(** X20. After [clear_history] the history of the document is empty,
    the history of every other document is unchanged, the keys stay
    distinct, and clearing again changes nothing. *)
Theorem clear_then_get (self : ChatMemory) (doc_id : string) :
  well_formed self ->
  get_history (clear_history self doc_id) doc_id = [] /\
  (forall other, other <> doc_id ->
                 get_history (clear_history self doc_id) other =
                 get_history self other) /\
  well_formed (clear_history self doc_id) /\
  clear_history (clear_history self doc_id) doc_id = clear_history self doc_id.
Proof.
  intros Hwf. unfold clear_history, get_history.
  destruct (contains doc_id self) eqn:E.
  - assert (Hgone : get doc_id (del doc_id self) = None) by now apply get_del_same.
    assert (Hc : contains doc_id (del doc_id self) = false).
    { destruct (contains doc_id (del doc_id self)) eqn:C; [|reflexivity].
      apply contains_get in C. contradiction. }
    rewrite Hgone, Hc. split; [reflexivity|]. split; [|split].
    + intros other Hne. now rewrite get_del_other.
    + now apply well_formed_del.
    + reflexivity.
  - rewrite E.
    assert (G : get doc_id self = None).
    { destruct (get doc_id self) eqn:G; [|reflexivity].
      assert (contains doc_id self = true) by (apply contains_get; congruence).
      congruence. }
    rewrite G. repeat split; trivial.
Qed.

(** Clearing one of two documents. *)
Lemma clear_then_get_witness :
  let memory := [("doc-1", [mkInteraction "Who?" "Acme"]);
                 ("doc-2", [mkInteraction "When?" "2021"])] in
  get_history (clear_history memory "doc-1") "doc-1" = [] /\
  get_history (clear_history memory "doc-1") "doc-2" = [mkInteraction "When?" "2021"].
Proof.
  intros memory.
  destruct (clear_then_get memory "doc-1") as (H1 & H2 & _ & _).
  - repeat constructor; simpl; intuition discriminate.
  - split; [exact H1|]. rewrite H2; [reflexivity | discriminate].
Defined.

End ChatMemoryFacts.

(* ================================================================== *)
(** * Chunking of clauses *)
(* ================================================================== *)

Module UtilsFacts.

Import PyStr Exn Spec StrFacts Utils.
Local Open Scope nat_scope.

Lemma range_from_length (step : nat) :
  0 < step ->
  forall fuel i stop,
    stop - i <= fuel ->
    length (range_from fuel i stop step) = (stop - i + step - 1) / step.
Proof.
  intros Hstep. induction fuel as [|fuel IH]; intros i stop Hfuel; simpl.
  - replace (stop - i + step - 1) with (step - 1) by lia.
    symmetry. apply Nat.div_small. lia.
  - destruct (i <? stop) eqn:E.
    + apply Nat.ltb_lt in E. simpl. rewrite IH by lia.
      replace (stop - i + step - 1) with ((stop - i - 1) + 1 * step) by lia.
      rewrite Nat.div_add by lia.
      destruct (Nat.le_gt_cases step (stop - i)) as [Hge | Hlt].
      * replace (stop - (i + step) + step - 1) with (stop - i - 1) by lia. lia.
      * replace (stop - (i + step) + step - 1) with (step - 1) by lia.
        rewrite (Nat.div_small (step - 1)) by lia.
        rewrite (Nat.div_small (stop - i - 1)) by lia. reflexivity.
    + apply Nat.ltb_ge in E. simpl.
      replace (stop - i + step - 1) with (step - 1) by lia.
      symmetry. apply Nat.div_small. lia.
Qed.

Lemma range_from_in (step : nat) :
  0 < step ->
  forall fuel i stop x,
    stop - i <= fuel ->
    (In x (range_from fuel i stop step) <->
     x < stop /\ exists n, x = i + n * step).
Proof.
  intros Hstep. induction fuel as [|fuel IH]; intros i stop x Hfuel; simpl.
  - split; [contradiction|]. intros [Hx [n ->]]. lia.
  - destruct (i <? stop) eqn:E.
    + apply Nat.ltb_lt in E. simpl. rewrite IH by lia. split.
      * intros [<- | [Hx [n ->]]].
        -- split; [exact E | exists 0; lia].
        -- split; [exact Hx | exists (S n); lia].
      * intros [Hx [[|n] ->]].
        -- left. lia.
        -- right. split; [exact Hx | exists n; lia].
    + apply Nat.ltb_ge in E. split; [contradiction|].
      intros [Hx [n ->]]. lia.
Qed.

(** X21. An overlap of -1 makes [range] raise ValueError, whatever the
    clauses; a smaller overlap gives no chunk; no clause gives no
    chunk. *)
Theorem chunking_edge_cases (clauses : list string) (overlap_size : Z) :
  (overlap_size = (-1)%Z ->
   chunk_clauses_with_overlap clauses overlap_size = Raise "ValueError") /\
  ((overlap_size < -1)%Z ->
   chunk_clauses_with_overlap clauses overlap_size = Ok []) /\
  ((0 <= overlap_size)%Z ->
   chunk_clauses_with_overlap [] overlap_size = Ok []).
Proof.
  unfold chunk_clauses_with_overlap. split; [|split]; intros H.
  - subst. reflexivity.
  - destruct (overlap_size + 1 =? 0)%Z eqn:E0; [apply Z.eqb_eq in E0; lia|].
    destruct (overlap_size + 1 <? 0)%Z eqn:E1; [reflexivity|].
    apply Z.ltb_ge in E1. lia.
  - destruct (overlap_size + 1 =? 0)%Z eqn:E0; [apply Z.eqb_eq in E0; lia|].
    destruct (overlap_size + 1 <? 0)%Z eqn:E1; [apply Z.ltb_lt in E1; lia|].
    reflexivity.
Qed.

Lemma chunk_nonneg (clauses : list string) (overlap_size : Z) :
  (0 <= overlap_size)%Z ->
  chunk_clauses_with_overlap clauses overlap_size =
  Ok (map (fun i =>
             join " " (list_slice clauses (Nat.max 0 (i - Z.to_nat overlap_size))
                                  (i + 1 + Z.to_nat overlap_size)))
          (range_from (length clauses) 0 (length clauses)
                      (Z.to_nat overlap_size + 1))).
Proof.
  intros H. unfold chunk_clauses_with_overlap.
  destruct (overlap_size + 1 =? 0)%Z eqn:E0; [apply Z.eqb_eq in E0; lia|].
  destruct (overlap_size + 1 <? 0)%Z eqn:E1; [apply Z.ltb_lt in E1; lia|].
  replace (Z.to_nat (overlap_size + 1)) with (Z.to_nat overlap_size + 1) by lia.
  reflexivity.
Qed.

(** X22. For an overlap k >= 0 the number of chunks is the number of
    clauses divided by k + 1, rounded up. *)
Theorem chunk_count (clauses : list string) (overlap_size : Z) :
  (0 <= overlap_size)%Z ->
  exists chunks : list string,
    chunk_clauses_with_overlap clauses overlap_size = Ok chunks /\
    length chunks =
    (length clauses + Z.to_nat overlap_size) / (Z.to_nat overlap_size + 1).
Proof.
  intros H. rewrite (chunk_nonneg clauses overlap_size H).
  eexists. split; [reflexivity|].
  rewrite length_map, range_from_length by lia.
  f_equal. lia.
Qed.

Lemma in_slice {A} (l : list A) (i j n : nat) (d : A) :
  i <= n -> n < j -> n < length l -> In (nth n l d) (list_slice l i j).
Proof.
  intros Hi Hj Hn. unfold list_slice.
  assert (E : nth n l d = nth (n - i) (firstn (j - i) (skipn i l)) d).
  { rewrite nth_firstn. replace (n - i <? j - i) with true
      by (symmetry; apply Nat.ltb_lt; lia).
    rewrite nth_skipn. f_equal. lia. }
  rewrite E. apply nth_In.
  rewrite length_firstn, length_skipn. lia.
Qed.

Lemma substring_join (sep c : string) (l : list string) :
  In c l -> Substring c (join sep l).
Proof.
  induction l as [|a l IH]; [contradiction|].
  intros [<- | H].
  - destruct l as [|b l]; simpl.
    + exists "", "". simpl. clear. induction a; simpl; [reflexivity | now f_equal].
    + exists "", (sep ++ join sep (b :: l)). reflexivity.
  - destruct l as [|b l]; [contradiction|].
    destruct (IH H) as (pre & post & E).
    exists (a ++ sep ++ pre), post.
    change (join sep (a :: b :: l)) with (a ++ sep ++ join sep (b :: l)).
    rewrite E. clear.
    induction a as [|ch a IHa]; simpl; [|now f_equal].
    induction sep as [|ch sep IHs]; simpl; [reflexivity | now f_equal].
Qed.

(** X23. For an overlap k >= 0 no clause is lost: every clause occurs
    in some chunk. *)
Theorem every_clause_is_chunked (clauses : list string) (overlap_size : Z)
    (clause : string) :
  (0 <= overlap_size)%Z -> In clause clauses ->
  exists chunks chunk,
    chunk_clauses_with_overlap clauses overlap_size = Ok chunks /\
    In chunk chunks /\ Substring clause chunk.
Proof.
  intros H Hin. rewrite (chunk_nonneg clauses overlap_size H).
  set (k := Z.to_nat overlap_size).
  destruct (In_nth clauses clause "" Hin) as (n & Hn & <-).
  set (i := (n / (k + 1)) * (k + 1)).
  pose proof (Nat.div_mod_eq n (k + 1)) as Hdm.
  assert (Hmod : n mod (k + 1) < k + 1) by (apply Nat.mod_upper_bound; lia).
  assert (Hi : i <= n) by (unfold i; lia).
  eexists. eexists. split; [reflexivity|]. split.
  - apply in_map_iff. exists i. split; [reflexivity|].
    apply range_from_in; [lia | lia |]. split; [lia|].
    exists (n / (k + 1)). reflexivity.
  - apply substring_join. apply in_slice; [lia | | exact Hn].
    unfold i. lia.
Qed.

Lemma slice_one (pre : list string) (a : string) (l : list string) :
  list_slice (pre ++ a :: l)%list (length pre) (length pre + 1) = [a].
Proof.
  unfold list_slice. rewrite skipn_app, skipn_all, Nat.sub_diag. simpl.
  replace (length pre + 1 - length pre) with 1 by lia. reflexivity.
Qed.

Lemma chunks_without_overlap (l : list string) :
  forall (pre : list string) fuel,
    length l <= fuel ->
    map (fun i => join " " (list_slice (pre ++ l)%list (Nat.max 0 (i - 0)) (i + 1 + 0)))
        (range_from fuel (length pre) (length pre + length l) 1) = l.
Proof.
  induction l as [|a l IH]; intros pre fuel Hfuel.
  - destruct fuel; simpl; [reflexivity|].
    replace (length pre <? length pre + 0) with false
      by (symmetry; apply Nat.ltb_ge; lia). reflexivity.
  - destruct fuel as [|fuel]; [simpl in Hfuel; lia|].
    cbn [range_from].
    replace (length pre <? length pre + length (a :: l)) with true
      by (symmetry; apply Nat.ltb_lt; simpl; lia).
    cbn [map]. f_equal.
    + replace (Nat.max 0 (length pre - 0)) with (length pre) by lia.
      replace (length pre + 1 + 0) with (length pre + 1) by lia.
      now rewrite slice_one.
    + specialize (IH (pre ++ [a])%list fuel).
      rewrite <- app_assoc in IH. simpl app in IH.
      rewrite length_app in IH. simpl length in IH.
      replace (length pre + 1 + length l) with (length pre + S (length l)) in IH by lia.
      apply IH. simpl in Hfuel. lia.
Qed.

(** X24. Without overlap the chunks are the clauses themselves. *)
Theorem no_overlap_is_identity (clauses : list string) :
  chunk_clauses_with_overlap clauses 0 = Ok clauses.
Proof.
  rewrite chunk_nonneg by lia. f_equal.
  change (Z.to_nat 0) with 0.
  apply (chunks_without_overlap clauses [] (length clauses)). lia.
Qed.

(** The three edge cases on two clauses and on none. *)
Lemma chunking_edge_cases_witness :
  chunk_clauses_with_overlap ["a"; "b"] (-1) = Raise "ValueError" /\
  chunk_clauses_with_overlap ["a"; "b"] (-2) = Ok [] /\
  chunk_clauses_with_overlap [] 1 = Ok [].
Proof.
  split; [|split].
  - apply (proj1 (chunking_edge_cases ["a"; "b"] (-1))). reflexivity.
  - apply (proj1 (proj2 (chunking_edge_cases ["a"; "b"] (-2)))). reflexivity.
  - apply (proj2 (proj2 (chunking_edge_cases ["a"; "b"] 1))). discriminate.
Defined.

(** Five clauses with the default overlap 1 give three chunks. *)
Lemma chunk_count_witness :
  exists chunks : list string,
    chunk_clauses_with_overlap ["a"; "b"; "c"; "d"; "e"] 1 = Ok chunks /\
    length chunks = ((5 + 1) / (1 + 1))%nat.
Proof. apply (chunk_count ["a"; "b"; "c"; "d"; "e"] 1). discriminate. Defined.

(** The fourth of five clauses. *)
Lemma every_clause_is_chunked_witness :
  exists chunks chunk,
    chunk_clauses_with_overlap ["a"; "b"; "c"; "d"; "e"] 1 = Ok chunks /\
    In chunk chunks /\ Substring "d" chunk.
Proof.
  apply (every_clause_is_chunked ["a"; "b"; "c"; "d"; "e"] 1 "d").
  - discriminate.
  - simpl. tauto.
Defined.

End UtilsFacts.
